(** * tweet-sentiment-app: the analytics derivation and batch CSV pipelines

    A shallow embedding of the pure computations of
    [frontend/src/App.tsx]: the explorer aggregations ([entityScores],
    [topPositiveEntities], [topNegativeEntities], [topEntitiesBar],
    [explorerMix], [sentimentIndex]), the client-side row filters
    ([filteredSampleRows], [filteredLeaderboardRows]), the batch merge of
    [onBatchFile] and the row projection of the two CSV downloads; further
    the chip colour and confidence bars of the single prediction, the batch
    pie chart ([batchDist]), the sentiment gauge and the three request
    flows ([runPredict], [runExplore], [onBatchFile]) as state transformers.

    Modelling conventions.
    - Counts are JavaScript numbers holding integers; they are modelled as
      [Z], i.e. within the range in which number arithmetic on integers is
      exact.
    - The quotients [score], [positivity], [negativity] and the sentiment
      index are modelled as exact rationals [Q]; the number the program
      holds is the correctly rounded value of that rational.  Equalities
      between quotients are stated with [Qeq]; comparisons are made on the
      rationals (rounding is monotone and fixes -1, 0 and 1, so bounds and
      sortedness carry over to the rounded numbers).
    - Strings are [string]s of one-byte characters: [toLowerCase] maps the
      letters A-Z, and [trim] strips the ASCII white space characters.
    - A JavaScript object used as a record of fields is a
      [gmap string jsval]; the order of its keys is not modelled.
    - A JavaScript [Map] whose entries are enumerated is an association
      list in insertion order; a [Map] that is only read is a [gmap]. *)

From Stdlib Require Import ZArith QArith List String Ascii Sorting.Sorted Permutation.
From stdpp Require Import base option list strings pretty sorting gmap fin_maps.

#[local] Set Warnings "-clear-no-such-hyp".

Local Close Scope Q_scope.
Local Open Scope string_scope.
Local Open Scope list_scope.
Local Open Scope Z_scope.

(** ** JavaScript values held by row objects *)

Inductive jsval : Type :=
  | JUndef
  | JNull
  | JNum (n : Z)
  | JStr (s : string).

#[global] Instance jsval_eq_dec : EqDecision jsval.
Proof. solve_decision. Defined.

#[global] Instance jsval_inhabited : Inhabited jsval := populate JUndef.

(** Truthiness, as used by [&&], [||] and [filter]. *)
Definition truthy (v : jsval) : bool :=
  match v with
  | JUndef | JNull => false
  | JNum n => negb (n =? 0)
  | JStr s => negb (String.eqb s "")
  end.

(** [a || b] *)
Definition js_or (a b : jsval) : jsval := if truthy a then a else b.

(** [String(v)] *)
Definition js_String (v : jsval) : string :=
  match v with
  | JUndef => "undefined"
  | JNull => "null"
  | JNum n => pretty n
  | JStr s => s
  end.

(** Property read [o.k] on an object: an absent key reads [undefined]. *)
Definition js_get (o : gmap string jsval) (k : string) : jsval :=
  default JUndef (o !! k).

(** ** Strings: [toLowerCase], [trim], [includes] *)

Definition lower_ascii (c : ascii) : ascii :=
  let n := nat_of_ascii c in
  if ((65 <=? n)%nat && (n <=? 90)%nat)%bool then ascii_of_nat (n + 32) else c.

Fixpoint toLowerCase (s : string) : string :=
  match s with
  | EmptyString => EmptyString
  | String c s' => String (lower_ascii c) (toLowerCase s')
  end.

Definition is_space (c : ascii) : bool :=
  let n := nat_of_ascii c in
  (((9 <=? n)%nat && (n <=? 13)%nat) || (n =? 32)%nat)%bool.

Fixpoint trimStart (s : string) : string :=
  match s with
  | EmptyString => EmptyString
  | String c s' => if is_space c then trimStart s' else s
  end.

Fixpoint str_rev_onto (s acc : string) : string :=
  match s with
  | EmptyString => acc
  | String c s' => str_rev_onto s' (String c acc)
  end.

Definition str_rev (s : string) : string := str_rev_onto s EmptyString.

Definition trim (s : string) : string :=
  str_rev (trimStart (str_rev (trimStart s))).

(** [s.includes(q)]: [q] occurs in [s] at some position. *)
Fixpoint includes (s q : string) : bool :=
  (String.prefix q s ||
   match s with
   | EmptyString => false
   | String _ s' => includes s' q
   end)%bool.

(** ** Insertion-ordered [Map<string, V>] *)

Module OMap.
Section omap.
Context {V : Type}.

Definition t := list (string * V).

Definition empty : t := [].

Fixpoint has (k : string) (m : t) : bool :=
    match m with
    | [] => false
    | (k', _) :: m' => if decide (k' = k) then true else has k m'
    end.

Fixpoint get (k : string) (m : t) : option V :=
    match m with
    | [] => None
    | (k', v) :: m' => if decide (k' = k) then Some v else get k m'
    end.

  (** [map.set(k, v)]: an existing key keeps its position. *)
Fixpoint set (k : string) (v : V) (m : t) : t :=
    match m with
    | [] => [(k, v)]
    | (k', v') :: m' =>
        if decide (k' = k) then (k, v) :: m' else (k', v') :: set k v m'
    end.

  (** Mutation of the object stored under [k] (the object returned by
      [map.get(k)] is the stored one, so writing its fields changes the
      entry in place). *)
Fixpoint modify (k : string) (f : V → V) (m : t) : t :=
    match m with
    | [] => []
    | (k', v) :: m' =>
        if decide (k' = k) then (k', f v) :: m' else (k', v) :: modify k f m'
    end.

Definition keys (m : t) : list string := m.*1.
End omap.
Arguments t : clear implicits.
End OMap.

(** ** [Array.prototype.sort] with a comparator

    [after a b] holds when the comparator called on [(a, b)] returns a
    positive number, i.e. [a] has to come after [b].  The sort is stable
    (ECMAScript 2019): for a comparator that is a total preorder every
    stable sort returns the same array, which is the one computed here. *)

Section js_sort.
Context {A : Type} (after : A → A → bool).

Fixpoint sort_insert (x : A) (l : list A) : list A :=
    match l with
    | [] => [x]
    | y :: l' => if after x y then y :: sort_insert x l' else x :: y :: l'
    end.

Fixpoint js_sort (l : list A) : list A :=
    match l with
    | [] => []
    | x :: l' => sort_insert x (js_sort l')
    end.
End js_sort.

(** [xs.slice(0, n)] *)
Definition slice0 {A} (n : nat) (xs : list A) : list A := take n xs.

(** [xs.map((x, i) => f(x, i))] *)
Definition mapi {A B} (f : A → nat → B) (xs : list A) : list B :=
  imap (λ i x, f x i) xs.

(** ** The explore response (api.ts) *)

Record DistributionEntry := { d_sentiment : string; d_count : Z }.
Record MixEntry := { m_entity : string; m_sentiment : string; m_count : Z }.
Record LeaderboardEntry := { l_entity : string; l_mentions : Z }.
Record SampleRow :=
  { s_tweet_id : jsval; s_entity : string; s_sentiment : string; s_text : string }.

(** ** Aggregator: [entityScores] *)

Record Tally := { pos : Z; neg : Z; neu : Z }.

Record EntityScore := {
  es_entity : string;
  es_pos : Z;
  es_neg : Z;
  es_neu : Z;
  es_total : Z;
  es_positivity : Q;
  es_negativity : Q;
  es_score : Q
}.

(** [x || 1] on a number *)
Definition or_one (x : Z) : Z := if x =? 0 then 1 else x.

Definition qdiv (a b : Z) : Q := (inject_Z a / inject_Z b)%Q.

Definition tally_zero : Tally := {| pos := 0; neg := 0; neu := 0 |}.

(** The three assignments of the loop body on [row]. *)
Definition tally_write (m : MixEntry) (row : Tally) : Tally :=
  let row :=
    if decide (m_sentiment m = "Positive")
    then {| pos := m_count m; neg := neg row; neu := neu row |} else row in
  let row :=
    if decide (m_sentiment m = "Negative")
    then {| pos := pos row; neg := m_count m; neu := neu row |} else row in
  let row :=
    if decide (m_sentiment m = "Neutral")
    then {| pos := pos row; neg := neg row; neu := m_count m |} else row in
  row.

(** One iteration of [for (const m of explore.mix)]. *)
Definition tally_step (map : OMap.t Tally) (m : MixEntry) : OMap.t Tally :=
  let map :=
    if negb (OMap.has (m_entity m) map)
    then OMap.set (m_entity m) tally_zero map else map in
  OMap.modify (m_entity m) (tally_write m) map.

Definition tally_map (mix : list MixEntry) : OMap.t Tally :=
  foldl tally_step OMap.empty mix.

Definition score_row (p : string * Tally) : EntityScore :=
  let '(entity, v) := p in
  let total := or_one (pos v + neg v + neu v) in
  let positivity := qdiv (pos v) total in
  let negativity := qdiv (neg v) total in
  let score := qdiv (pos v - neg v) total in
  {| es_entity := entity; es_pos := pos v; es_neg := neg v; es_neu := neu v;
     es_total := total; es_positivity := positivity;
     es_negativity := negativity; es_score := score |}.

(** Comparator [(a, b) => b.total - a.total]. *)
Definition by_total_desc (a b : EntityScore) : bool :=
  0 <? es_total b - es_total a.

Definition entityScores (mix : list MixEntry) : list EntityScore :=
  js_sort by_total_desc (score_row <$> tally_map mix).

(** [entityScores.slice(0, 20).sort((a, b) => b.score - a.score).slice(0, 8)] *)
Definition by_score_desc (a b : EntityScore) : bool :=
  if Qlt_le_dec 0 (es_score b - es_score a)%Q then true else false.

(** Comparator [(a, b) => a.score - b.score]. *)
Definition by_score_asc (a b : EntityScore) : bool :=
  if Qlt_le_dec 0 (es_score a - es_score b)%Q then true else false.

Definition topPositiveEntities (scores : list EntityScore) : list EntityScore :=
  slice0 8 (js_sort by_score_desc (slice0 20 scores)).

Definition topNegativeEntities (scores : list EntityScore) : list EntityScore :=
  slice0 8 (js_sort by_score_asc (slice0 20 scores)).

(** ** Aggregator: chart series *)

Record Bar := { labels : list string; values : list Z }.

Definition topEntitiesBar (leaderboard : list LeaderboardEntry) : Bar :=
  {| labels := l_entity <$> slice0 10 leaderboard;
     values := l_mentions <$> slice0 10 leaderboard |}.

(** [new Set(xs)] enumerated with [Array.from]: first occurrences, in
    insertion order. *)
Definition set_add (s : list string) (x : string) : list string :=
  if decide (x ∈ s) then s else s ++ [x].

Definition set_of (xs : list string) : list string := foldl set_add [] xs.

Record MixSeries := {
  mx_x : list string;
  mx_neg : list Z;
  mx_neu : list Z;
  mx_pos : list Z
}.

Definition mix_record0 : gmap string Z :=
  <["Positive" := 0]> (<["Neutral" := 0]> (<["Negative" := 0]> ∅)).

(** [entities.forEach((e) => map.set(e, { Negative: 0, Neutral: 0, Positive: 0 }))] *)
Definition mix_init (entities : list string) : gmap string (gmap string Z) :=
  foldl (λ mp e, <[e := mix_record0]> mp) ∅ entities.

(** [explore.mix.forEach((m) => (map.get(m.entity)![m.sentiment] = m.count))];
    every entity of [mix] has been [set] before, so the [get] is defined. *)
Definition mix_fill (mp : gmap string (gmap string Z)) (mix : list MixEntry) :
    gmap string (gmap string Z) :=
  foldl (λ mp m, alter (<[m_sentiment m := m_count m]>) (m_entity m) mp) mp mix.

(** [map.get(e)!.k] *)
Definition mix_read (mp : gmap string (gmap string Z)) (k e : string) : Z :=
  default 0 (mp !! e ≫= (.!! k)).

Definition explorerMix (mix : list MixEntry) : MixSeries :=
  let entities := set_of (m_entity <$> mix) in
  let map := mix_fill (mix_init entities) mix in
  {| mx_x := entities;
     mx_neg := mix_read map "Negative" <$> entities;
     mx_neu := mix_read map "Neutral" <$> entities;
     mx_pos := mix_read map "Positive" <$> entities |}.

(** ** Aggregator: [sentimentIndex] *)

(** [new Map(explore.distribution.map((d) => [d.sentiment, d.count]))] *)
Definition dist_map (distribution : list DistributionEntry) : gmap string Z :=
  foldl (λ mp d, <[d_sentiment d := d_count d]> mp) ∅ distribution.

(** [dist.get(k) ?? 0] *)
Definition dist_get (dist : gmap string Z) (k : string) : Z :=
  default 0 (dist !! k).

Definition sentimentIndex (distribution : list DistributionEntry) : Q :=
  let dist := dist_map distribution in
  let neg := dist_get dist "Negative" in
  let neu := dist_get dist "Neutral" in
  let pos := dist_get dist "Positive" in
  let denom := or_one (neg + neu + pos) in
  qdiv (pos - neg) denom.

(** ** Row objects of the two grids *)

(** [{ ...base, ...r }]: the keys of [r] win. *)
Definition spread_over (base r : gmap string jsval) : gmap string jsval := r ∪ base.

Definition leaderboard_obj (r : LeaderboardEntry) : gmap string jsval :=
  <["mentions" := JNum (l_mentions r)]> (<["entity" := JStr (l_entity r)]> ∅).

Definition sample_obj (r : SampleRow) : gmap string jsval :=
  <["text" := JStr (s_text r)]>
    (<["sentiment" := JStr (s_sentiment r)]>
       (<["entity" := JStr (s_entity r)]>
          (<["tweet_id" := s_tweet_id r]> ∅))).

(** [{ id: i + 1, ...r }] *)
Definition with_id (r : gmap string jsval) (i : nat) : gmap string jsval :=
  spread_over (<["id" := JNum (Z.of_nat i + 1)]> ∅) r.

Definition leaderboardRows (leaderboard : list LeaderboardEntry) :
    list (gmap string jsval) :=
  mapi (λ r i, with_id (leaderboard_obj r) i) leaderboard.

Definition sampleRows (samples : list SampleRow) : list (gmap string jsval) :=
  mapi (λ r i, with_id (sample_obj r) i) samples.

(** ** RowFilter *)

(** [String(r.k || "").toLowerCase()] *)
Definition field_text (r : gmap string jsval) (k : string) : string :=
  toLowerCase (js_String (js_or (js_get r k) (JStr ""))).

Definition sample_match (q : string) (r : gmap string jsval) : bool :=
  let t := field_text r "text" in
  let e := field_text r "entity" in
  let s := field_text r "sentiment" in
  let id := field_text r "tweet_id" in
  (includes t q || includes e q || includes s q || includes id q)%bool.

Definition leaderboard_match (q : string) (r : gmap string jsval) : bool :=
  includes (field_text r "entity") q.

Definition filteredSampleRows (sampleRows : list (gmap string jsval))
    (localSearch : string) : list (gmap string jsval) :=
  if (length sampleRows =? 0)%nat then sampleRows else
  let q := toLowerCase (trim localSearch) in
  if String.eqb q "" then sampleRows else
  List.filter (sample_match q) sampleRows.

Definition filteredLeaderboardRows (leaderboardRows : list (gmap string jsval))
    (localSearch : string) : list (gmap string jsval) :=
  if (length leaderboardRows =? 0)%nat then leaderboardRows else
  let q := toLowerCase (trim localSearch) in
  if String.eqb q "" then leaderboardRows else
  List.filter (leaderboard_match q) leaderboardRows.

(** ** BatchMerger ([onBatchFile])

    A row parsed from the uploaded CSV with [header: true] maps column
    names to strings. *)

Definition csv_obj (r : gmap string string) : gmap string jsval := JStr <$> r.

(** [results.data.filter((r) => r && r.text)] *)
Definition batch_rows (data : list (gmap string string)) : list (gmap string string) :=
  List.filter (λ r, truthy (js_get (csv_obj r) "text")) data.

(** [rows.map((r) => String(r.text))], the body of the request. *)
Definition batch_texts (rows : list (gmap string string)) : list string :=
  (λ r, js_String (js_get (csv_obj r) "text")) <$> rows.

(** [sentiments[i]] *)
Definition label_at (sentiments : list string) (i : nat) : jsval :=
  from_option JStr JUndef (sentiments !! i).

(** [{ id: i + 1, ...row, predicted_sentiment: sentiments[i] }] *)
Definition merge_row (sentiments : list string) (row : gmap string string)
    (i : nat) : gmap string jsval :=
  <["predicted_sentiment" := label_at sentiments i]> (with_id (csv_obj row) i).

Definition batch_merge (data : list (gmap string string))
    (sentiments : list string) : list (gmap string jsval) :=
  mapi (merge_row sentiments) (batch_rows data).

(** ** CsvExporter: the rows handed to [Papa.unparse] *)

(** [({ id, ...rest }) => rest] *)
Definition strip_id (r : gmap string jsval) : gmap string jsval := delete "id" r.

(** [downloadCSV]: [batchPredRows.map(({ id, ...rest }) => rest)] *)
Definition downloadCSV_rows (batchPredRows : list (gmap string jsval)) :
    list (gmap string jsval) :=
  strip_id <$> batchPredRows.

(** [downloadFilteredSamplesCsv]:
    [filteredSampleRows.map(({ id, ...rest }) => rest)] *)
Definition downloadFilteredSamplesCsv_rows (sampleRows : list (gmap string jsval))
    (localSearch : string) : list (gmap string jsval) :=
  strip_id <$> filteredSampleRows sampleRows localSearch.

(** ** Vocabulary of the statements *)

(** The three sentiment classes the aggregations read. *)
Definition classes : list string := ["Positive"; "Negative"; "Neutral"].

(** The field of a tally / of an entity score that belongs to a class. *)
Definition tally_field (s : string) (t : Tally) : Z :=
  if decide (s = "Positive") then pos t
  else if decide (s = "Negative") then neg t
  else if decide (s = "Neutral") then neu t
  else 0.

Definition es_field (s : string) (r : EntityScore) : Z :=
  if decide (s = "Positive") then es_pos r
  else if decide (s = "Negative") then es_neg r
  else if decide (s = "Neutral") then es_neu r
  else 0.

Definition mx_field (s : string) (x : MixSeries) : list Z :=
  if decide (s = "Positive") then mx_pos x
  else if decide (s = "Negative") then mx_neg x
  else if decide (s = "Neutral") then mx_neu x
  else [].

(** [m] is a row of the (entity, sentiment) pair [(e, s)]. *)
Definition of_pair (e s : string) (m : MixEntry) : Prop :=
  m_entity m = e ∧ m_sentiment m = s.

(** "The count of the [(e, s)] mix entry, 0 when the pair is absent". *)
Definition pair_count (mix : list MixEntry) (e s : string) (c : Z) : Prop :=
  (∃ m, m ∈ mix ∧ of_pair e s m ∧ m_count m = c) ∨
  ((∀ m, m ∈ mix → ¬ of_pair e s m) ∧ c = 0).

(** The tally one entity ends with: the loop body applied to the rows of
    that entity, in input order. *)
Definition tally_from (row : Tally) (mix : list MixEntry) (e : string) : Tally :=
  foldl (λ row m, if decide (m_entity m = e) then tally_write m row else row) row mix.

Definition tally_of (mix : list MixEntry) (e : string) : Tally :=
  tally_from tally_zero mix e.

(** "The count recorded for class [s]" in a distribution: the count of the
    entry of that class (of the last one, should the class be listed more
    than once), 0 when the class is absent. *)
Definition class_count (distribution : list DistributionEntry) (s : string)
    (c : Z) : Prop :=
  (∃ l1 d l2, distribution = l1 ++ d :: l2 ∧ d_sentiment d = s ∧ d_count d = c ∧
     ∀ d', d' ∈ l2 → d_sentiment d' ≠ s) ∨
  ((∀ d, d ∈ distribution → d_sentiment d ≠ s) ∧ c = 0).

(** "The bar series shows the entities with the largest mentions": the
    series lists a selection of [min 10 (length leaderboard)] entries none of
    which has fewer mentions than an entry left out. *)
Definition shows_largest (leaderboard : list LeaderboardEntry) (bar : Bar) : Prop :=
  ∃ shown rest,
    leaderboard ≡ₚ shown ++ rest ∧
    length shown = Nat.min 10 (length leaderboard) ∧
    (∀ x y, x ∈ shown → y ∈ rest → l_mentions y ≤ l_mentions x) ∧
    labels bar = l_entity <$> shown ∧
    values bar = l_mentions <$> shown.

(** An uploaded row "carries a non-empty text field". *)
Definition has_text (r : gmap string string) : Prop :=
  match r !! "text" with
  | Some s => s ≠ ""
  | None => False
  end.

#[global] Instance has_text_dec (r : gmap string string) : Decision (has_text r).
Proof. unfold has_text. destruct (r !! "text"); apply _. Defined.

(** "The query is empty or whitespace-only". *)
Fixpoint all_space (s : string) : bool :=
  match s with
  | EmptyString => true
  | String c s' => is_space c && all_space s'
  end.

(** [q] occurs in [s] as a substring. *)
Definition contains (s q : string) : Prop :=
  ∃ pre post, s = (pre ++ q ++ post)%string.

(** The fields the two filters match on. *)
Definition sample_fields : list string := ["text"; "entity"; "sentiment"; "tweet_id"].
Definition leaderboard_fields : list string := ["entity"].

(** Equality of quotients is decidable. *)
#[global] Instance Qeq_decision (x y : Q) : Decision (x == y)%Q := Qeq_dec x y.

(** ** The sentiment gauge

    [value={((sentimentIndex + 1) / 2) * 100}], the position of the
    determinate progress bar under the index. *)
Definition gauge (index : Q) : Q := ((index + 1) / 2 * 100)%Q.

(** ** Single prediction: chip colour and confidence bars *)

Inductive ChipColor : Type :=
  | ChipDefault
  | ChipSuccess
  | ChipWarning
  | ChipError
  | ChipInfo.

(** [s || ""] on a string *)
Definition str_or_empty (s : string) : string :=
  if String.eqb s "" then "" else s.

Definition sentimentChipColor (s : string) : ChipColor :=
  let x := toLowerCase (str_or_empty s) in
  if includes x "pos" then ChipSuccess
  else if includes x "neg" then ChipError
  else if includes x "neu" then ChipInfo
  else ChipDefault.

(** The probabilities are numbers received from the server; every finite
    number is a rational, and the sign of the difference of two of them is
    the sign of the difference of the rationals. *)
Record PredictResponse := {
  p_sentiment : string;
  p_classes : option (list string);
  p_probabilities : option (list Q)
}.

(** [{ label: c, value: pred.probabilities![i] }]: the value is [undefined]
    when the probabilities are fewer than the classes. *)
Record ConfRow := { c_label : string; c_value : option Q }.

(** Comparator [(a, b) => b.value - a.value]; with an [undefined] operand
    the difference is [NaN], which the sort reads as 0. *)
Definition by_value_desc (a b : ConfRow) : bool :=
  match c_value b, c_value a with
  | Some vb, Some va => if Qlt_le_dec 0 (vb - va)%Q then true else false
  | _, _ => false
  end.

Definition confidenceData (pred : option PredictResponse) : option (list ConfRow) :=
  match pred with
  | None => None
  | Some p =>
      match p_classes p, p_probabilities p with
      | Some cs, Some ps =>
          let rows := mapi (λ c i, {| c_label := c; c_value := ps !! i |}) cs in
          Some (js_sort by_value_desc rows)
      | _, _ => None
      end
  end.

(** ** Batch distribution ([batchDist])

    [counts] is a plain object used as a dictionary.  Its own keys are
    enumerated by [Object.entries] with the array-index keys first, in
    ascending numeric order, then the other keys in order of creation. *)

Record PieDatum := { pd_id : nat; pd_label : string; pd_value : Z }.

(** The property names a plain object inherits from [Object.prototype]:
    for these [counts[k]] reads an inherited function (or the prototype),
    not [undefined]. *)
Definition object_prototype_names : list string :=
  ["constructor"; "__defineGetter__"; "__defineSetter__"; "hasOwnProperty";
   "__lookupGetter__"; "__lookupSetter__"; "isPrototypeOf";
   "propertyIsEnumerable"; "toString"; "valueOf"; "__proto__";
   "toLocaleString"].

Definition digit_of (c : ascii) : option N :=
  let n := N_of_ascii c in
  if ((48 <=? n)%N && (n <=? 57)%N)%bool then Some (n - 48)%N else None.

Fixpoint parse_digits (acc : N) (s : string) : option N :=
  match s with
  | EmptyString => Some acc
  | String c s' =>
      match digit_of c with
      | Some d => parse_digits (10 * acc + d)%N s'
      | None => None
      end
  end.

(** A key is an array index when it is the canonical decimal form of an
    integer below [2^32 - 1]. *)
Definition array_index (s : string) : option N :=
  match s with
  | EmptyString => None
  | String c s' =>
      if (Ascii.eqb c "0" && negb (String.eqb s' ""))%bool then None
      else match parse_digits 0 s with
           | Some n => if (n <? 2 ^ 32 - 1)%N then Some n else None
           | None => None
           end
  end.

Definition is_index {V} (p : string * V) : bool :=
  match array_index p.1 with Some _ => true | None => false end.

Definition index_after {V} (a b : string * V) : bool :=
  match array_index a.1, array_index b.1 with
  | Some na, Some nb => (nb <? na)%N
  | _, _ => false
  end.

(** [Object.entries(o)] for an object whose properties were created in the
    order of [o]. *)
Definition js_entries {V} (o : OMap.t V) : OMap.t V :=
  js_sort index_after (List.filter is_index o) ++
  List.filter (λ p, negb (is_index p)) o.

(** The property key [r.predicted_sentiment] is converted to. *)
Definition batch_key (r : gmap string jsval) : string :=
  js_String (js_get r "predicted_sentiment").

(** [counts[k] = (counts[k] || 0) + 1] for a key that is not inherited. *)
Definition count_step (counts : OMap.t Z) (k : string) : OMap.t Z :=
  OMap.set k (default 0 (OMap.get k counts) + 1) counts.

(** [None] stands for the runs this model leaves out: a label that is one
    of the inherited names, where the tally stops being a number. *)
Definition batchDist (batchPredRows : list (gmap string jsval)) :
    option (list PieDatum) :=
  if (length batchPredRows =? 0)%nat then Some [] else
  let keys := batch_key <$> batchPredRows in
  if existsb (λ k, bool_decide (k ∈ object_prototype_names)) keys then None else
  let counts := foldl count_step OMap.empty keys in
  Some (mapi (λ p i, {| pd_id := i; pd_label := p.1; pd_value := p.2 |})
             (js_entries counts)).

(** ** The three request flows

    A request either resolves with the response body or is rejected with
    an error whose [message] may be missing.  The server is a function from
    the request body to that outcome; a flow returns the state once its
    promise has settled, together with the request it sent. *)

Inductive Response (A : Type) : Type :=
  | Resolved (data : A)
  | Rejected (message : option string).
Arguments Resolved {A} data.
Arguments Rejected {A} message.

(** *** [runPredict] *)

Record PredictState := {
  sp_text : string;
  sp_pred : option PredictResponse;
  sp_predLoading : bool
}.

Definition runPredict (server : string → Response PredictResponse)
    (st : PredictState) : PredictState * option string :=
  (* setPred(null) *)
  let st := {| sp_text := sp_text st; sp_pred := None;
               sp_predLoading := sp_predLoading st |} in
  let t := trim (sp_text st) in
  (* if (!t) return *)
  if String.eqb t "" then (st, None) else
  (* setPredLoading(true); try { setPred(r.data) } finally { setPredLoading(false) } *)
  let st := {| sp_text := sp_text st; sp_pred := sp_pred st;
               sp_predLoading := true |} in
  let st :=
    match server t with
    | Resolved data =>
        {| sp_text := sp_text st; sp_pred := Some data;
           sp_predLoading := sp_predLoading st |}
    | Rejected _ => st
    end in
  ({| sp_text := sp_text st; sp_pred := sp_pred st; sp_predLoading := false |},
   Some t).

(** *** [runExplore] *)

Inductive WcSentiment : Type := WcNegative | WcNeutral | WcPositive.

Record ExploreResponse := {
  er_total_rows : Z;
  er_top_entity : option string;
  er_share_neutral : Q;
  er_share_positive : Q;
  er_distribution : list DistributionEntry;
  er_mix : list MixEntry;
  er_leaderboard : list LeaderboardEntry;
  er_samples : list SampleRow;
  er_wordcloud_png_base64 : option string
}.

Record ExploreRequest := {
  rq_entity : string;
  rq_keyword : string;
  rq_sentiment : string;
  rq_wc_sentiment : WcSentiment;
  rq_top_entities_n : Z;
  rq_leaderboard_n : Z;
  rq_sample_n : Z
}.

Record ExplorerState := {
  sx_entity : string;
  sx_keyword : string;
  sx_sentiment : string;
  sx_wcSentiment : WcSentiment;
  sx_explore : option ExploreResponse;
  sx_exploreLoading : bool;
  sx_exploreError : option string;
  sx_localSearch : string
}.

Definition set_exploreError (v : option string) (st : ExplorerState) : ExplorerState :=
  {| sx_entity := sx_entity st; sx_keyword := sx_keyword st;
     sx_sentiment := sx_sentiment st; sx_wcSentiment := sx_wcSentiment st;
     sx_explore := sx_explore st; sx_exploreLoading := sx_exploreLoading st;
     sx_exploreError := v; sx_localSearch := sx_localSearch st |}.

Definition set_exploreLoading (v : bool) (st : ExplorerState) : ExplorerState :=
  {| sx_entity := sx_entity st; sx_keyword := sx_keyword st;
     sx_sentiment := sx_sentiment st; sx_wcSentiment := sx_wcSentiment st;
     sx_explore := sx_explore st; sx_exploreLoading := v;
     sx_exploreError := sx_exploreError st; sx_localSearch := sx_localSearch st |}.

Definition set_explore (v : option ExploreResponse) (st : ExplorerState) :
    ExplorerState :=
  {| sx_entity := sx_entity st; sx_keyword := sx_keyword st;
     sx_sentiment := sx_sentiment st; sx_wcSentiment := sx_wcSentiment st;
     sx_explore := v; sx_exploreLoading := sx_exploreLoading st;
     sx_exploreError := sx_exploreError st; sx_localSearch := sx_localSearch st |}.

(** [e?.message || "Failed to load explorer analytics."] *)
Definition explore_error_message (message : option string) : string :=
  match message with
  | Some m => if String.eqb m "" then "Failed to load explorer analytics." else m
  | None => "Failed to load explorer analytics."
  end.

Definition explore_request (st : ExplorerState) : ExploreRequest :=
  {| rq_entity := sx_entity st; rq_keyword := sx_keyword st;
     rq_sentiment := sx_sentiment st; rq_wc_sentiment := sx_wcSentiment st;
     rq_top_entities_n := 12; rq_leaderboard_n := 50; rq_sample_n := 200 |}.

(** The flow returns the state it has put in place when it suspends on the
    request (the state shown while the request is in flight), the state once
    the request has settled, and the request sent. *)
Definition runExplore (server : ExploreRequest → Response ExploreResponse)
    (st : ExplorerState) : ExplorerState * ExplorerState * ExploreRequest :=
  (* setExploreError(null); setExploreLoading(true) *)
  let st := set_exploreError None st in
  let st := set_exploreLoading true st in
  let req := explore_request st in
  let in_flight := st in
  let st :=
    match server req with
    | Resolved data => set_explore (Some data) st
    | Rejected message => set_exploreError (Some (explore_error_message message)) st
    end in
  (* finally { setExploreLoading(false) } *)
  let st := set_exploreLoading false st in
  (in_flight, st, req).

(** *** [onBatchFile] *)

Record BatchState := {
  sb_batchPredRows : list (gmap string jsval);
  sb_batchLoading : bool;
  sb_batchFilename : string
}.

(** What [Papa.parse] calls back with. *)
Inductive ParseOutcome : Type :=
  | ParseComplete (data : list (gmap string string))
  | ParseError.

Definition onBatchFile (file_name : string) (parse : ParseOutcome)
    (server : list string → Response (list string)) (st : BatchState) :
    BatchState * option (list string) :=
  (* setBatchPredRows([]); setBatchFilename(file.name); setBatchLoading(true) *)
  let st := {| sb_batchPredRows := []; sb_batchLoading := true;
               sb_batchFilename := file_name |} in
  match parse with
  | ParseError =>
      ({| sb_batchPredRows := sb_batchPredRows st; sb_batchLoading := false;
          sb_batchFilename := sb_batchFilename st |}, None)
  | ParseComplete data =>
      let texts := batch_texts (batch_rows data) in
      let st :=
        match server texts with
        | Resolved sentiments =>
            {| sb_batchPredRows := batch_merge data sentiments;
               sb_batchLoading := sb_batchLoading st;
               sb_batchFilename := sb_batchFilename st |}
        | Rejected _ => st
        end in
      ({| sb_batchPredRows := sb_batchPredRows st; sb_batchLoading := false;
          sb_batchFilename := sb_batchFilename st |}, Some texts)
  end.

(** ** Concrete runs *)

Definition mk (e s : string) (c : Z) : MixEntry :=
  {| m_entity := e; m_sentiment := s; m_count := c |}.

Definition dk (s : string) (c : Z) : DistributionEntry :=
  {| d_sentiment := s; d_count := c |}.

Definition lk (e : string) (n : Z) : LeaderboardEntry :=
  {| l_entity := e; l_mentions := n |}.

(** Eleven entities in ascending order of mentions. *)
Definition leaderboard_asc : list LeaderboardEntry :=
  [lk "e1" 1; lk "e2" 2; lk "e3" 3; lk "e4" 4; lk "e5" 5; lk "e6" 6;
   lk "e7" 7; lk "e8" 8; lk "e9" 9; lk "e10" 10; lk "e11" 11].

Definition sk (id : jsval) (e s t : string) : SampleRow :=
  {| s_tweet_id := id; s_entity := e; s_sentiment := s; s_text := t |}.

(** Two samples whose identifiers are the numbers 0 and 10. *)
Definition samples_zero_id : list SampleRow :=
  [sk (JNum 0) "Nvidia" "Neutral" "first"; sk (JNum 10) "Nvidia" "Neutral" "second"].

Example entityScores_single :
  entityScores [mk "A" "Positive" 5] =
  [ {| es_entity := "A"; es_pos := 5; es_neg := 0; es_neu := 0; es_total := 5;
       es_positivity := qdiv 5 5; es_negativity := qdiv 0 5;
       es_score := qdiv 5 5 |} ].
Proof. reflexivity. Qed.

(** * Properties *)

(** ** The sort *)

Section js_sort_facts.
Context {A : Type} (after : A → A → bool).

Lemma sort_insert_perm (x : A) (l : list A) : sort_insert after x l ≡ₚ x :: l.
  Proof.
    induction l as [|y l IH]; simpl; [done|].
    destruct (after x y); [|done].
    rewrite IH. apply Permutation_swap.
  Qed.

Lemma js_sort_perm (l : list A) : js_sort after l ≡ₚ l.
  Proof.
    induction l as [|x l IH]; simpl; [done|].
    by rewrite sort_insert_perm, IH.
  Qed.

Lemma js_sort_length (l : list A) : length (js_sort after l) = length l.
  Proof. by rewrite js_sort_perm. Qed.

Lemma js_sort_elem_of (x : A) (l : list A) : x ∈ js_sort after l ↔ x ∈ l.
  Proof. by rewrite js_sort_perm. Qed.

  (** A comparator that decides a total preorder [le] sorts by it. *)
Context (le : A → A → Prop).
Context (le_trans : ∀ x y z, le x y → le y z → le x z).
Context (after_true : ∀ x y, after x y = true → le y x).
Context (after_false : ∀ x y, after x y = false → le x y).

Lemma sort_insert_sorted (x : A) (l : list A) :
    StronglySorted le l → StronglySorted le (sort_insert after x l).
  Proof.
    induction 1 as [|y l Hs IH Hall]; simpl.
    - repeat constructor.
    - destruct (after x y) eqn:Hxy.
      + constructor; [done|].
        rewrite sort_insert_perm. constructor; [by apply after_true|done].
      + constructor; [by constructor|].
        constructor; [by apply after_false|].
        eapply Forall_impl; [exact Hall|].
        intros z Hz. eapply le_trans; [by apply after_false|done].
  Qed.

Lemma js_sort_sorted (l : list A) : StronglySorted le (js_sort after l).
  Proof.
    induction l as [|x l IH]; simpl; [constructor|by apply sort_insert_sorted].
  Qed.
End js_sort_facts.

(** Stability on the simplest case: an array already in order is returned
    as it is, ties included. *)
Lemma js_sort_in_order {A} (after : A → A → bool) (l : list A) :
  StronglySorted (λ a b, after a b = false) l → js_sort after l = l.
Proof.
  induction 1 as [|x l Hs IH Hall]; simpl; [done|].
  rewrite IH. destruct Hall as [|y l' Hxy _]; simpl; [done|]. by rewrite Hxy.
Qed.

(** ** The insertion-ordered map *)

Section omap_facts.
Context {V : Type}.
Implicit Types (m : OMap.t V) (k : string) (v : V).

Lemma omap_has_get k m : OMap.has k m = true ↔ is_Some (OMap.get k m).
  Proof.
    induction m as [|[k' v'] m IH]; simpl.
    - split; [done|]. by intros [? ?].
    - case_decide; [|done]. split; eauto.
  Qed.

Lemma omap_has_keys k m : OMap.has k m = true ↔ k ∈ OMap.keys m.
  Proof.
    unfold OMap.keys. induction m as [|[k' v'] m IH]; simpl.
    - split; [done|]. by intros ?%elem_of_nil.
    - rewrite elem_of_cons, <- IH. case_decide; [|split; [by right|]]; intuition congruence.
  Qed.

Lemma omap_get_set k k' v m :
    OMap.get k' (OMap.set k v m) = if decide (k = k') then Some v else OMap.get k' m.
  Proof.
    induction m as [|[k0 v0] m IH]; simpl.
    - repeat case_decide; naive_solver.
    - repeat (case_decide; simpl); simplify_eq; try done.
      all: rewrite IH; by repeat case_decide.
  Qed.

Lemma omap_get_modify k k' (f : V → V) m :
    OMap.get k' (OMap.modify k f m) =
    if decide (k = k') then f <$> OMap.get k' m else OMap.get k' m.
  Proof.
    induction m as [|[k0 v0] m IH]; simpl.
    - by case_decide.
    - repeat (case_decide; simpl); simplify_eq; try done.
      all: rewrite IH; by repeat case_decide.
  Qed.

Lemma omap_keys_modify k (f : V → V) m :
    OMap.keys (OMap.modify k f m) = OMap.keys m.
  Proof.
    unfold OMap.keys. induction m as [|[k0 v0] m IH]; simpl; [done|].
    case_decide; simpl; [done|]. by f_equal.
  Qed.

Lemma omap_keys_set_fresh k v m :
    OMap.has k m = false → OMap.keys (OMap.set k v m) = OMap.keys m ++ [k].
  Proof.
    unfold OMap.keys. induction m as [|[k0 v0] m IH]; simpl; [done|].
    case_decide; [done|]. intros ?. simpl. f_equal. by apply IH.
  Qed.

Lemma omap_elem_of_get k v m :
    NoDup (OMap.keys m) → (k, v) ∈ m ↔ OMap.get k m = Some v.
  Proof.
    unfold OMap.keys. induction m as [|[k0 v0] m IH]; simpl.
    - intros _. split; [by intros ?%elem_of_nil|done].
    - intros [Hnin Hnd]%NoDup_cons. rewrite elem_of_cons, IH by done.
      case_decide as Hk; simplify_eq.
      + split; [|intros [= ->]; by left]. intros [[= ->]|Hget]; [done|].
        exfalso. apply Hnin, omap_has_keys, omap_has_get; eauto.
      + split; [intros [[= ? ?]|?]; [congruence|done]|by right].
  Qed.
End omap_facts.

(** ** The set of entities *)

Lemma set_add_elem_of (s : list string) (x y : string) :
  y ∈ set_add s x ↔ y ∈ s ∨ y = x.
Proof.
  unfold set_add. case_decide.
  - split; [by left|]. by intros [?| ->].
  - rewrite elem_of_app, list_elem_of_singleton. done.
Qed.

Lemma set_add_NoDup (s : list string) (x : string) : NoDup s → NoDup (set_add s x).
Proof.
  intros Hs. unfold set_add. case_decide; [done|].
  apply NoDup_app. split_and!; [done| |apply NoDup_singleton].
  intros y Hy ->%list_elem_of_singleton. done.
Qed.

Lemma set_from_elem_of (s xs : list string) (y : string) :
  y ∈ foldl set_add s xs ↔ y ∈ s ∨ y ∈ xs.
Proof.
  revert s. induction xs as [|x xs IH]; intros s; simpl.
  - split; [by left|]. by intros [?|?%elem_of_nil].
  - rewrite IH, set_add_elem_of, elem_of_cons. intuition.
Qed.

Lemma set_from_NoDup (s xs : list string) : NoDup s → NoDup (foldl set_add s xs).
Proof.
  revert s. induction xs as [|x xs IH]; intros s Hs; simpl; [done|].
  by apply IH, set_add_NoDup.
Qed.

Lemma set_of_elem_of (xs : list string) (y : string) : y ∈ set_of xs ↔ y ∈ xs.
Proof.
  unfold set_of. rewrite set_from_elem_of. split; [|by right].
  by intros [?%elem_of_nil|?].
Qed.

Lemma set_of_NoDup (xs : list string) : NoDup (set_of xs).
Proof. apply set_from_NoDup, NoDup_nil_2. Qed.

(** ** The tally map of [entityScores] *)

Lemma tally_step_get (map : OMap.t Tally) (m : MixEntry) (e : string) :
  OMap.get e (tally_step map m) =
  if decide (m_entity m = e)
  then Some (tally_write m (default tally_zero (OMap.get e map)))
  else OMap.get e map.
Proof.
  unfold tally_step. rewrite omap_get_modify.
  destruct (OMap.has (m_entity m) map) eqn:Hhas; simpl.
  - case_decide as He; [subst e|done].
    apply omap_has_get in Hhas as [v ->]. done.
  - rewrite omap_get_set. case_decide as He; [subst e|done].
    destruct (OMap.get (m_entity m) map) eqn:Hget; [|done].
    assert (OMap.has (m_entity m) map = true) by (apply omap_has_get; eauto).
    congruence.
Qed.

Lemma tally_step_keys (map : OMap.t Tally) (m : MixEntry) :
  OMap.keys (tally_step map m) = set_add (OMap.keys map) (m_entity m).
Proof.
  unfold tally_step, set_add. rewrite omap_keys_modify.
  destruct (OMap.has (m_entity m) map) eqn:Hhas; simpl.
  - apply omap_has_keys in Hhas. by rewrite decide_True.
  - rewrite omap_keys_set_fresh by done. rewrite decide_False; [done|].
    intros Hin%omap_has_keys. congruence.
Qed.

Lemma tally_map_snoc (mix : list MixEntry) (m : MixEntry) :
  tally_map (mix ++ [m]) = tally_step (tally_map mix) m.
Proof. apply foldl_snoc. Qed.

(** The entities of the map are those of [mix], in order of first
    appearance: the order [explorerMix] uses for its labels. *)
Lemma tally_map_keys (mix : list MixEntry) :
  OMap.keys (tally_map mix) = set_of (m_entity <$> mix).
Proof.
  induction mix as [|m mix IH] using rev_ind; [done|].
  rewrite tally_map_snoc, tally_step_keys, IH.
  unfold set_of. rewrite fmap_app. simpl fmap. by rewrite foldl_snoc.
Qed.

Lemma tally_map_keys_NoDup (mix : list MixEntry) : NoDup (OMap.keys (tally_map mix)).
Proof. rewrite tally_map_keys. apply set_of_NoDup. Qed.

Lemma tally_from_snoc (row : Tally) (mix : list MixEntry) (m : MixEntry) (e : string) :
  tally_from row (mix ++ [m]) e =
  if decide (m_entity m = e) then tally_write m (tally_from row mix e)
  else tally_from row mix e.
Proof. unfold tally_from. by rewrite foldl_snoc. Qed.

Lemma tally_from_absent (row : Tally) (mix : list MixEntry) (e : string) :
  e ∉ m_entity <$> mix → tally_from row mix e = row.
Proof.
  induction mix as [|m mix IH] using rev_ind; [done|].
  rewrite fmap_app, tally_from_snoc. intros Hnin.
  rewrite decide_False by set_solver. apply IH. set_solver.
Qed.

Lemma tally_map_get (mix : list MixEntry) (e : string) :
  OMap.get e (tally_map mix) =
  if decide (e ∈ m_entity <$> mix) then Some (tally_of mix e) else None.
Proof.
  induction mix as [|m mix IH] using rev_ind.
  - rewrite decide_False; [done|]. by intros ?%elem_of_nil.
  - rewrite tally_map_snoc, tally_step_get, IH. unfold tally_of.
    rewrite tally_from_snoc, fmap_app. simpl.
    destruct (decide (m_entity m = e)) as [<-|Hne].
    + rewrite (decide_True (P := _ ∈ _ ++ _)) by set_solver.
      case_decide as Hin; [done|]. simpl. by rewrite tally_from_absent.
    + case_decide as Hin.
      * rewrite decide_True by set_solver. done.
      * rewrite decide_False; [done|]. set_solver.
Qed.

(** ** What the loop body writes *)

Lemma classes_inv (s : string) :
  s ∈ classes ↔ s = "Positive" ∨ s = "Negative" ∨ s = "Neutral".
Proof. unfold classes. set_solver. Qed.

Lemma tally_write_field_eq (s : string) (m : MixEntry) (row : Tally) :
  s ∈ classes → m_sentiment m = s → tally_field s (tally_write m row) = m_count m.
Proof.
  intros Hs <-. apply classes_inv in Hs.
  unfold tally_field, tally_write.
  destruct Hs as [Hs|[Hs|Hs]]; rewrite Hs; reflexivity.
Qed.

Lemma tally_write_field_ne (s : string) (m : MixEntry) (row : Tally) :
  m_sentiment m ≠ s → tally_field s (tally_write m row) = tally_field s row.
Proof.
  intros Hne. unfold tally_field, tally_write.
  repeat case_decide; simplify_eq; done.
Qed.

Lemma tally_from_keep (s e : string) (row : Tally) (mix : list MixEntry) :
  (∀ m, m ∈ mix → ¬ of_pair e s m) →
  tally_field s (tally_from row mix e) = tally_field s row.
Proof.
  induction mix as [|m mix IH] using rev_ind; [done|].
  intros Hno. rewrite tally_from_snoc.
  assert (tally_field s (tally_from row mix e) = tally_field s row) as Hrec.
  { apply IH. intros m' Hm'. apply Hno. set_solver. }
  case_decide as He; [|done].
  rewrite tally_write_field_ne; [done|].
  intros Hs. apply (Hno m); [set_solver|done].
Qed.

(** The last row of a pair decides the field. *)
Lemma tally_of_last (l1 l2 : list MixEntry) (m : MixEntry) :
  m_sentiment m ∈ classes →
  (∀ m', m' ∈ l2 → ¬ of_pair (m_entity m) (m_sentiment m) m') →
  tally_field (m_sentiment m) (tally_of (l1 ++ m :: l2) (m_entity m)) = m_count m.
Proof.
  intros Hs Hno. unfold tally_of, tally_from.
  rewrite foldl_app. simpl. rewrite decide_True by done.
  fold (tally_from tally_zero l1 (m_entity m)).
  match goal with
  | |- context [foldl ?f ?r l2] => change (foldl f r l2) with (tally_from r l2 (m_entity m))
  end.
  rewrite tally_from_keep by done. by apply tally_write_field_eq.
Qed.

Lemma tally_of_none (mix : list MixEntry) (e s : string) :
  (∀ m, m ∈ mix → ¬ of_pair e s m) → tally_field s (tally_of mix e) = 0.
Proof.
  intros Hno. unfold tally_of. rewrite tally_from_keep by done.
  unfold tally_field. by repeat case_decide.
Qed.

(** With each pair at most once, the field is the count of the pair. *)
Lemma tally_of_pair_count (mix : list MixEntry) (e s : string) (c : Z) :
  NoDup ((λ m, (m_entity m, m_sentiment m)) <$> mix) →
  s ∈ classes →
  pair_count mix e s c → tally_field s (tally_of mix e) = c.
Proof.
  intros Hnd Hs [(m & Hm & [He Hms] & Hc)|[Hno ->]]; [|by apply tally_of_none].
  apply list_elem_of_split in Hm as (l1 & l2 & ->). subst e s c.
  apply tally_of_last; [done|].
  intros m' Hm' [He' Hs'].
  rewrite fmap_app, fmap_cons in Hnd.
  apply NoDup_app in Hnd as (_ & _ & [Hnin _]%NoDup_cons).
  apply Hnin. apply list_elem_of_fmap. exists m'. split; [|done]. congruence.
Qed.

Lemma pair_count_total (mix : list MixEntry) (e s : string) :
  ∃ c, pair_count mix e s c.
Proof.
  destruct (decide (Exists (λ m, m_entity m = e ∧ m_sentiment m = s) mix))
    as [(m & Hm & Hp)%Exists_exists|Hno].
  - exists (m_count m). left. by exists m.
  - exists 0. right. split; [|done]. intros m Hm Hp.
    apply Hno, Exists_exists. by exists m.
Qed.

Lemma tally_write_nonneg (m : MixEntry) (row : Tally) :
  0 ≤ m_count m →
  0 ≤ pos row ∧ 0 ≤ neg row ∧ 0 ≤ neu row →
  0 ≤ pos (tally_write m row) ∧ 0 ≤ neg (tally_write m row) ∧
  0 ≤ neu (tally_write m row).
Proof.
  intros Hc (? & ? & ?). unfold tally_write.
  repeat case_decide; simpl; done.
Qed.

Lemma tally_of_nonneg (mix : list MixEntry) (e : string) :
  Forall (λ m, 0 ≤ m_count m) mix →
  0 ≤ pos (tally_of mix e) ∧ 0 ≤ neg (tally_of mix e) ∧ 0 ≤ neu (tally_of mix e).
Proof.
  unfold tally_of.
  induction mix as [|m mix IH] using rev_ind; intros Hall; [done|].
  apply Forall_app in Hall as [Hmix [Hm _]%Forall_cons].
  rewrite tally_from_snoc. case_decide; [|by apply IH].
  apply tally_write_nonneg; [done|by apply IH].
Qed.

(** ** Quotients *)

Lemma or_one_pos (x : Z) : 0 ≤ x → or_one x = Z.max 1 x ∧ 0 < or_one x.
Proof. unfold or_one. intros Hx. destruct (Z.eqb_spec x 0); lia. Qed.

Lemma qdiv_bounds (a b : Z) : 0 < b → - b ≤ a ≤ b → (-1 <= qdiv a b <= 1)%Q.
Proof.
  intros Hb [Hlo Hhi]. unfold qdiv.
  assert (0 < inject_Z b)%Q as Hb' by (change 0%Q with (inject_Z 0); by rewrite <- Zlt_Qlt).
  split.
  - apply Qle_shift_div_l; [done|].
    change (-1)%Q with (inject_Z (-1)).
    rewrite <- inject_Z_mult, <- Zle_Qle. lia.
  - apply Qle_shift_div_r; [done|].
    change 1%Q with (inject_Z 1).
    rewrite <- inject_Z_mult, <- Zle_Qle. lia.
Qed.

Lemma qdiv_zero (b : Z) : (qdiv 0 b == 0)%Q.
Proof. unfold qdiv, Qdiv. apply Qmult_0_l. Qed.

(** ** The comparators decide total preorders *)

Lemma by_total_desc_true (a b : EntityScore) :
  by_total_desc a b = true → es_total a ≤ es_total b.
Proof. unfold by_total_desc. intros ?%Z.ltb_lt. lia. Qed.

Lemma by_total_desc_false (a b : EntityScore) :
  by_total_desc a b = false → es_total b ≤ es_total a.
Proof. unfold by_total_desc. intros ?%Z.ltb_ge. lia. Qed.

Lemma by_score_desc_true (a b : EntityScore) :
  by_score_desc a b = true → (es_score a <= es_score b)%Q.
Proof.
  unfold by_score_desc. destruct (Qlt_le_dec _ _) as [Hlt|]; [intros _|done].
  by apply Qlt_le_weak, Qlt_minus_iff.
Qed.

Lemma by_score_desc_false (a b : EntityScore) :
  by_score_desc a b = false → (es_score b <= es_score a)%Q.
Proof.
  unfold by_score_desc. destruct (Qlt_le_dec _ _) as [|Hle]; [done|intros _].
  apply Qle_minus_iff. apply Qle_minus_iff in Hle.
  rewrite Qplus_0_l in Hle. unfold Qminus in Hle.
  rewrite Qopp_plus, Qopp_opp, Qplus_comm in Hle. done.
Qed.

Lemma by_score_asc_true (a b : EntityScore) :
  by_score_asc a b = true → (es_score b <= es_score a)%Q.
Proof.
  unfold by_score_asc. destruct (Qlt_le_dec _ _) as [Hlt|]; [intros _|done].
  by apply Qlt_le_weak, Qlt_minus_iff.
Qed.

Lemma by_score_asc_false (a b : EntityScore) :
  by_score_asc a b = false → (es_score a <= es_score b)%Q.
Proof.
  unfold by_score_asc. destruct (Qlt_le_dec _ _) as [|Hle]; [done|intros _].
  apply Qle_minus_iff. apply Qle_minus_iff in Hle.
  rewrite Qplus_0_l in Hle. unfold Qminus in Hle.
  rewrite Qopp_plus, Qopp_opp, Qplus_comm in Hle. done.
Qed.

(** ** [entityScores] *)

Lemma entityScores_elem_of (mix : list MixEntry) (r : EntityScore) :
  r ∈ entityScores mix ↔
  ∃ e, e ∈ m_entity <$> mix ∧ r = score_row (e, tally_of mix e).
Proof.
  unfold entityScores. rewrite js_sort_elem_of, list_elem_of_fmap. split.
  - intros ([e v] & -> & Hin). exists e.
    apply omap_elem_of_get in Hin; [|apply tally_map_keys_NoDup].
    rewrite tally_map_get in Hin. case_decide; by simplify_eq.
  - intros (e & He & ->). exists (e, tally_of mix e). split; [done|].
    apply omap_elem_of_get; [apply tally_map_keys_NoDup|].
    rewrite tally_map_get. by rewrite decide_True.
Qed.

Lemma entityScores_entities (mix : list MixEntry) :
  es_entity <$> entityScores mix ≡ₚ set_of (m_entity <$> mix).
Proof.
  unfold entityScores. rewrite js_sort_perm, <- tally_map_keys.
  unfold OMap.keys. rewrite <- list_fmap_compose.
  assert (es_entity ∘ score_row <$> tally_map mix = (tally_map mix).*1) as ->; [|done].
  apply list_fmap_ext. by intros ? [e v].
Qed.

Lemma entityScores_sorted (mix : list MixEntry) :
  StronglySorted (λ a b, es_total b ≤ es_total a) (entityScores mix).
Proof.
  apply js_sort_sorted.
  - intros x y z ? ?. lia.
  - apply by_total_desc_true.
  - apply by_total_desc_false.
Qed.

Lemma score_row_fields (e s : string) (v : Tally) :
  es_field s (score_row (e, v)) = tally_field s v.
Proof. reflexivity. Qed.

Lemma pair_count_unique (mix : list MixEntry) (e s : string) (c1 c2 : Z) :
  NoDup ((λ m, (m_entity m, m_sentiment m)) <$> mix) →
  pair_count mix e s c1 → pair_count mix e s c2 → c1 = c2.
Proof.
  intros Hnd [(m1 & Hm1 & Hp1 & <-)|[Hno1 ->]] [(m2 & Hm2 & Hp2 & <-)|[Hno2 ->]].
  - f_equal. apply list_elem_of_lookup in Hm1 as [i1 Hi1].
    apply list_elem_of_lookup in Hm2 as [i2 Hi2].
    assert (i1 = i2) as <-; [|congruence].
    eapply NoDup_lookup; [exact Hnd| |]; rewrite list_lookup_fmap.
    + by rewrite Hi1.
    + rewrite Hi2. simpl. destruct Hp1 as [-> ->], Hp2 as [-> ->]. done.
  - by destruct (Hno2 m1).
  - by destruct (Hno1 m2).
  - done.
Qed.

Lemma entityScores_fields (mix : list MixEntry) (r : EntityScore) (s : string) :
  NoDup ((λ m, (m_entity m, m_sentiment m)) <$> mix) →
  s ∈ classes →
  r ∈ entityScores mix → pair_count mix (es_entity r) s (es_field s r).
Proof.
  intros Hnd Hs (e & He & ->)%entityScores_elem_of.
  rewrite score_row_fields. simpl.
  destruct (pair_count_total mix e s) as [c Hc].
  by rewrite (tally_of_pair_count mix e s c).
Qed.

(** C1.  When each (entity, sentiment) pair occurs at most once in [mix]
    and all counts are non-negative, [entityScores mix] has exactly one
    entry per distinct entity of [mix]; its [pos], [neg] and [neu] are the
    counts of the entity's "Positive", "Negative" and "Neutral" rows (0 when
    the pair is absent, so rows of any other sentiment contribute nothing);
    [total] is [pos + neg + neu] floored at 1; [score] is
    [(pos - neg) / total]; and the list is sorted by [total], descending. *)
Theorem entityScores_spec (mix : list MixEntry) :
  NoDup ((λ m, (m_entity m, m_sentiment m)) <$> mix) →
  Forall (λ m, 0 ≤ m_count m) mix →
  NoDup (es_entity <$> entityScores mix) ∧
  (∀ e, e ∈ es_entity <$> entityScores mix ↔ e ∈ m_entity <$> mix) ∧
  (∀ r, r ∈ entityScores mix →
     pair_count mix (es_entity r) "Positive" (es_pos r) ∧
     pair_count mix (es_entity r) "Negative" (es_neg r) ∧
     pair_count mix (es_entity r) "Neutral" (es_neu r) ∧
     es_total r = Z.max 1 (es_pos r + es_neg r + es_neu r) ∧
     (es_score r == inject_Z (es_pos r - es_neg r) / inject_Z (es_total r))%Q) ∧
  StronglySorted (λ a b, es_total b ≤ es_total a) (entityScores mix).
Proof.
  intros Hnd Hnn. split_and!.
  - rewrite entityScores_entities. apply set_of_NoDup.
  - intros e. by rewrite entityScores_entities, set_of_elem_of.
  - intros r Hr.
    pose proof (entityScores_fields mix r "Positive" Hnd) as Hp.
    pose proof (entityScores_fields mix r "Negative" Hnd) as Hn.
    pose proof (entityScores_fields mix r "Neutral" Hnd) as Hu.
    split_and!; [apply Hp|apply Hn|apply Hu| |]; try done;
      try (apply classes_inv; tauto).
    + apply entityScores_elem_of in Hr as (e & _ & ->). simpl.
      destruct (tally_of_nonneg mix e Hnn) as (? & ? & ?).
      apply or_one_pos. lia.
    + apply entityScores_elem_of in Hr as (e & _ & ->). reflexivity.
  - apply entityScores_sorted.
Qed.

Lemma entityScores_spec_witness :
  let mix := [mk "A" "Positive" 5; mk "B" "Neutral" 7; mk "A" "Negative" 2;
              mk "C" "Mixed" 3; mk "B" "Positive" 0] in
  NoDup ((λ m, (m_entity m, m_sentiment m)) <$> mix) ∧
  Forall (λ m, 0 ≤ m_count m) mix ∧
  (es_entity <$> entityScores mix = ["A"; "B"; "C"]) ∧
  StronglySorted (λ a b, es_total b ≤ es_total a) (entityScores mix).
Proof.
  intros mix.
  assert (NoDup ((λ m, (m_entity m, m_sentiment m)) <$> mix)) as Hnd.
  { compute_done. }
  assert (Forall (λ m, 0 ≤ m_count m) mix) as Hnn.
  { repeat constructor; vm_compute; discriminate. }
  split_and!; [exact Hnd|exact Hnn|reflexivity|].
  apply (entityScores_spec mix Hnd Hnn).
Defined.

(** C2.  With non-negative counts every score lies in [[-1, 1]]: the
    denominator [total] is [pos + neg + neu], replaced by 1 when that sum is
    0, hence strictly positive, so no division by zero occurs; an entity
    whose rows all carry a sentiment outside the three classes has total 1
    and score 0. *)
Theorem entityScores_score_bounds (mix : list MixEntry) :
  Forall (λ m, 0 ≤ m_count m) mix →
  ∀ r, r ∈ entityScores mix →
    es_total r = (if es_pos r + es_neg r + es_neu r =? 0 then 1
                  else es_pos r + es_neg r + es_neu r) ∧
    0 < es_total r ∧
    es_score r = qdiv (es_pos r - es_neg r) (es_total r) ∧
    (-1 <= es_score r <= 1)%Q ∧
    ((∀ m, m ∈ mix → m_entity m = es_entity r → m_sentiment m ∉ classes) →
     es_total r = 1 ∧ (es_score r == 0)%Q).
Proof.
  intros Hnn r (e & He & ->)%entityScores_elem_of. simpl.
  destruct (tally_of_nonneg mix e Hnn) as (Hp & Hn & Hu).
  set (v := tally_of mix e) in *.
  destruct (or_one_pos (pos v + neg v + neu v)) as [Hmax Hpos]; [lia|].
  split; [done|]. split; [done|]. split; [done|]. split.
  - apply qdiv_bounds; lia.
  - intros Hother.
    assert (∀ s, s ∈ classes → tally_field s v = 0) as Hz.
    { intros s Hs. apply tally_of_none. intros m Hm [He' Hs'].
      apply (Hother m Hm He'). by rewrite Hs'. }
    pose proof (Hz "Positive") as Hz1. pose proof (Hz "Negative") as Hz2.
    pose proof (Hz "Neutral") as Hz3.
    unfold tally_field in Hz1, Hz2, Hz3. simpl in Hz1, Hz2, Hz3.
    rewrite Hz1, Hz2, Hz3 by (apply classes_inv; tauto).
    split; [done|]. apply qdiv_zero.
Qed.

Lemma entityScores_score_bounds_witness :
  let mix := [mk "A" "Positive" 1; mk "A" "Negative" 3; mk "C" "Mixed" 4] in
  let r := {| es_entity := "C"; es_pos := 0; es_neg := 0; es_neu := 0;
              es_total := 1; es_positivity := qdiv 0 1;
              es_negativity := qdiv 0 1; es_score := qdiv 0 1 |} in
  Forall (λ m, 0 ≤ m_count m) mix ∧ r ∈ entityScores mix ∧
  0 < es_total r ∧ (-1 <= es_score r <= 1)%Q.
Proof.
  intros mix r.
  assert (Forall (λ m, 0 ≤ m_count m) mix) as Hnn.
  { repeat constructor; vm_compute; discriminate. }
  assert (r ∈ entityScores mix) as Hr.
  { apply list_elem_of_In. vm_compute. tauto. }
  destruct (entityScores_score_bounds mix Hnn r Hr) as (_ & Hpos & _ & Hb & _).
  split_and!; [exact Hnn|exact Hr|exact Hpos|apply Hb..].
Defined.

(** ** [topPositiveEntities] and [topNegativeEntities] *)

Lemma score_desc_sorted (l : list EntityScore) :
  StronglySorted (λ a b, (es_score b <= es_score a)%Q) (js_sort by_score_desc l).
Proof.
  apply js_sort_sorted.
  - intros x y z Hxy Hyz. by apply Qle_trans with (es_score y).
  - apply by_score_desc_true.
  - apply by_score_desc_false.
Qed.

Lemma score_asc_sorted (l : list EntityScore) :
  StronglySorted (λ a b, (es_score a <= es_score b)%Q) (js_sort by_score_asc l).
Proof.
  apply js_sort_sorted.
  - intros x y z Hxy Hyz. by apply Qle_trans with (es_score y).
  - apply by_score_asc_true.
  - apply by_score_asc_false.
Qed.

Lemma sorted_take_drop {A} (R : relation A) (n : nat) (l : list A) :
  StronglySorted R l →
  StronglySorted R (take n l) ∧ ∀ x y, x ∈ take n l → y ∈ drop n l → R x y.
Proof.
  rewrite <- (take_drop n l) at 1. intros (Hx & Ht & _)%StronglySorted_app.
  split; [done|]. intros x y. apply Hx.
Qed.

(** C3.  [topPositiveEntities] and [topNegativeEntities] take the first 20
    entries of the total-descending [entityScores] list, which has one entry
    per distinct entity of [mix] (no entry left out of the 20 has a larger
    total), sort that subset by score descending, resp. ascending, and keep
    the first 8.  The sorted subset is a rearrangement of the 20: the kept
    entries together with the cut ones are a permutation of the subset, so
    every entry of either list is among those 20 and none appears twice.
    The lists are sorted by score (descending, resp. ascending), no entry
    that was cut has a better score than a kept one, and each list has
    [min 8 n] entries for [n] entity scores, hence at most 8. *)
Theorem top_entities_spec (mix : list MixEntry) :
  let scores := entityScores mix in
  let top20 := take 20 scores in
  let topPositive := topPositiveEntities scores in
  let topNegative := topNegativeEntities scores in
  (NoDup (es_entity <$> scores) ∧
   ∀ e, e ∈ es_entity <$> scores ↔ e ∈ m_entity <$> mix) ∧
  (scores = top20 ++ drop 20 scores ∧
   length top20 = Nat.min 20 (length scores)) ∧
  (∀ r r', r ∈ top20 → r' ∈ drop 20 scores → es_total r' ≤ es_total r) ∧
  topPositive = take 8 (js_sort by_score_desc top20) ∧
  topNegative = take 8 (js_sort by_score_asc top20) ∧
  topPositive ++ drop 8 (js_sort by_score_desc top20) ≡ₚ top20 ∧
  topNegative ++ drop 8 (js_sort by_score_asc top20) ≡ₚ top20 ∧
  (∀ r, r ∈ topPositive → r ∈ top20) ∧
  (∀ r, r ∈ topNegative → r ∈ top20) ∧
  (NoDup (es_entity <$> topPositive) ∧ NoDup (es_entity <$> topNegative)) ∧
  StronglySorted (λ a b, (es_score b <= es_score a)%Q) topPositive ∧
  StronglySorted (λ a b, (es_score a <= es_score b)%Q) topNegative ∧
  (∀ r r', r ∈ topPositive → r' ∈ drop 8 (js_sort by_score_desc top20) →
     (es_score r' <= es_score r)%Q) ∧
  (∀ r r', r ∈ topNegative → r' ∈ drop 8 (js_sort by_score_asc top20) →
     (es_score r <= es_score r')%Q) ∧
  (length topPositive = Nat.min 8 (length scores) ∧
   length topNegative = Nat.min 8 (length scores)) ∧
  (length topPositive ≤ 8)%nat ∧ (length topNegative ≤ 8)%nat.
Proof.
  cbv zeta. unfold topPositiveEntities, topNegativeEntities, slice0.
  set (scores := entityScores mix). set (top20 := take 20 scores).
  destruct (sorted_take_drop _ 20 scores (entityScores_sorted mix)) as [_ Hvol].
  destruct (sorted_take_drop _ 8 _ (score_desc_sorted top20)) as [Hps Hpc].
  destruct (sorted_take_drop _ 8 _ (score_asc_sorted top20)) as [Hns Hnc].
  assert (NoDup (es_entity <$> scores)) as Hnd.
  { unfold scores. rewrite entityScores_entities. apply set_of_NoDup. }
  assert (∀ after, NoDup (es_entity <$> take 8 (js_sort after top20))) as Hnd8.
  { intros after.
    apply (sublist_NoDup _ (es_entity <$> js_sort after top20));
      [|apply fmap_sublist, sublist_take].
    rewrite js_sort_perm.
    apply (sublist_NoDup _ (es_entity <$> scores)); [done|].
    apply fmap_sublist, sublist_take. }
  split.
  { split; [exact Hnd|]. intros e. unfold scores.
    by rewrite entityScores_entities, set_of_elem_of. }
  split.
  { split; [unfold top20; by rewrite take_drop|apply length_take]. }
  split; [exact Hvol|]. split; [done|]. split; [done|].
  split; [by rewrite take_drop, js_sort_perm|].
  split; [by rewrite take_drop, js_sort_perm|].
  split.
  { intros r Hr%subseteq_take. by apply js_sort_elem_of in Hr. }
  split.
  { intros r Hr%subseteq_take. by apply js_sort_elem_of in Hr. }
  split; [split; apply Hnd8|].
  split; [exact Hps|]. split; [exact Hns|].
  split; [exact Hpc|]. split; [exact Hnc|].
  rewrite !length_take, !js_sort_length. unfold top20.
  rewrite !length_take. lia.
Qed.

Example top_entities_single :
  let scores := entityScores [mk "A" "Positive" 5] in
  es_entity <$> topPositiveEntities scores = ["A"] ∧
  es_entity <$> topNegativeEntities scores = ["A"].
Proof. split; reflexivity. Qed.

(** ** [sentimentIndex] *)

Lemma dist_map_snoc (l : list DistributionEntry) (d : DistributionEntry) :
  dist_map (l ++ [d]) = <[d_sentiment d := d_count d]> (dist_map l).
Proof. unfold dist_map. by rewrite foldl_snoc. Qed.

Lemma dist_map_lookup (distribution : list DistributionEntry) (s : string) (c : Z) :
  class_count distribution s c → dist_get (dist_map distribution) s = c.
Proof.
  unfold dist_get. revert c.
  induction distribution as [|d l IH] using rev_ind; intros c.
  - intros [(l1 & d & l2 & Heq & _)|[_ ->]]; [by destruct l1|done].
  - rewrite dist_map_snoc. intros [(l1 & d0 & l2 & Heq & Hs & Hc & Hno)|[Hno ->]].
    + destruct l2 as [|d2 l2 _] using rev_ind.
      * apply (app_inj_tail l l1 d d0) in Heq as [-> ->].
        rewrite Hs, lookup_insert_eq. done.
      * rewrite app_comm_cons, app_assoc in Heq.
        apply app_inj_tail in Heq as [-> ->].
        rewrite lookup_insert_ne by (apply Hno; set_solver).
        apply IH. left. exists l1, d0, l2. split_and!; try done.
        intros d' Hd'. apply Hno. set_solver.
    + rewrite lookup_insert_ne by (apply Hno; set_solver).
      apply (IH 0). right. split; [|done]. intros d' Hd'. apply Hno. set_solver.
Qed.

Lemma class_count_total (distribution : list DistributionEntry) (s : string) :
  ∃ c, class_count distribution s c.
Proof.
  induction distribution as [|d l [c IH]] using rev_ind.
  - exists 0. right. split; [|done]. by intros d ?%elem_of_nil.
  - destruct (decide (d_sentiment d = s)) as [Hs|Hs].
    + exists (d_count d). left. exists l, d, []. split_and!; try done.
      by intros d' ?%elem_of_nil.
    + exists c. destruct IH as [(l1 & d0 & l2 & -> & Hs0 & Hc & Hno)|[Hno ->]].
      * left. exists l1, d0, (l2 ++ [d]). rewrite <- app_assoc. split_and!; try done.
        intros d' [?| ->%list_elem_of_singleton]%elem_of_app; [by apply Hno|done].
      * right. split; [|done].
        intros d' [?| ->%list_elem_of_singleton]%elem_of_app; [by apply Hno|done].
Qed.

Lemma class_count_nonneg (distribution : list DistributionEntry) (s : string) (c : Z) :
  Forall (λ d, 0 ≤ d_count d) distribution → class_count distribution s c → 0 ≤ c.
Proof.
  intros Hnn [(l1 & d & l2 & -> & _ & <- & _)|[_ ->]]; [|done].
  by apply Forall_app in Hnn as [_ [? _]%Forall_cons].
Qed.



(** ** [topEntitiesBar] *)

(** The client does not sort: on an array that is not in ranking order
    (eleven entities of 1 to 11 mentions, listed in that order) the series
    lists the first ten and leaves "e11" out. *)
Lemma topEntitiesBar_unsorted :
  topEntitiesBar leaderboard_asc =
    {| labels := ["e1"; "e2"; "e3"; "e4"; "e5"; "e6"; "e7"; "e8"; "e9"; "e10"];
       values := [1; 2; 3; 4; 5; 6; 7; 8; 9; 10] |} ∧
  ¬ shows_largest leaderboard_asc (topEntitiesBar leaderboard_asc).
Proof.
  split; [reflexivity|].
  intros (shown & rest & Hperm & Hlen & Hmax & _ & Hval).
  assert (Forall (λ x, l_mentions x ≤ 10) shown) as Hsmall.
  { apply Forall_fmap with (f := l_mentions) (P := λ v, v ≤ 10).
    rewrite <- Hval. repeat constructor; vm_compute; discriminate. }
  assert (lk "e11" 11 ∈ shown ++ rest) as [Hin|Hin]%elem_of_app.
  { rewrite <- Hperm. unfold leaderboard_asc. set_solver. }
  - rewrite Forall_forall in Hsmall. specialize (Hsmall _ Hin). simpl in Hsmall. lia.
  - destruct shown as [|x shown]; [done|].
    apply Forall_cons in Hsmall as [Hx _].
    specialize (Hmax x _ ltac:(left) Hin). simpl in Hmax. lia.
Qed.

(** C8.  The leaderboard is the ranked list of the response (mentions
    descending).  The bar series lists its first 10 entries in order (all of
    them when there are fewer): the labels are their names, the values their
    mention counts; on the ranked leaderboard these are the 10 entities with
    the largest mentions, no entity left out having more mentions than a
    listed one. *)
Theorem topEntitiesBar_spec (leaderboard : list LeaderboardEntry) :
  labels (topEntitiesBar leaderboard) = l_entity <$> take 10 leaderboard ∧
  values (topEntitiesBar leaderboard) = l_mentions <$> take 10 leaderboard ∧
  length (labels (topEntitiesBar leaderboard)) = Nat.min 10 (length leaderboard) ∧
  (StronglySorted (λ a b, l_mentions b ≤ l_mentions a) leaderboard →
   shows_largest leaderboard (topEntitiesBar leaderboard)).
Proof.
  split; [done|]. split; [done|]. split.
  { unfold topEntitiesBar, slice0. cbn [labels].
    by rewrite length_fmap, length_take. }
  intros Hsorted. exists (take 10 leaderboard), (drop 10 leaderboard).
  split; [by rewrite take_drop|]. split; [apply length_take|].
  split; [|done].
  intros x y Hx Hy. by apply (sorted_take_drop _ 10 leaderboard Hsorted).
Qed.

Lemma topEntitiesBar_spec_witness :
  let leaderboard :=
    [lk "a" 50; lk "b" 40; lk "c" 40; lk "d" 30; lk "e" 30; lk "f" 20;
     lk "g" 10; lk "h" 9; lk "i" 8; lk "j" 7; lk "k" 7; lk "l" 5] in
  StronglySorted (λ a b, l_mentions b ≤ l_mentions a) leaderboard ∧
  labels (topEntitiesBar leaderboard) =
    ["a"; "b"; "c"; "d"; "e"; "f"; "g"; "h"; "i"; "j"] ∧
  values (topEntitiesBar leaderboard) = [50; 40; 40; 30; 30; 20; 10; 9; 8; 7] ∧
  shows_largest leaderboard (topEntitiesBar leaderboard).
Proof.
  intros leaderboard.
  assert (StronglySorted (λ a b, l_mentions b ≤ l_mentions a) leaderboard) as Hs.
  { repeat constructor; vm_compute; discriminate. }
  split; [exact Hs|]. split; [reflexivity|]. split; [reflexivity|].
  exact (proj2 (proj2 (proj2 (topEntitiesBar_spec leaderboard))) Hs).
Defined.

(** ** [explorerMix] *)

Lemma mix_init_is_Some (entities : list string) (e : string) :
  e ∈ entities → is_Some (mix_init entities !! e).
Proof.
  unfold mix_init. induction entities as [|x l IH] using rev_ind.
  - by intros ?%elem_of_nil.
  - rewrite foldl_snoc, lookup_insert_is_Some.
    intros [?| ->%list_elem_of_singleton]%elem_of_app.
    + destruct (decide (x = e)); [by left|right; auto].
    + by left.
Qed.

Lemma mix_fill_cons (mp : gmap string (gmap string Z)) (m : MixEntry)
    (l : list MixEntry) :
  mix_fill mp (m :: l) =
  mix_fill (alter (<[m_sentiment m := m_count m]>) (m_entity m) mp) l.
Proof. reflexivity. Qed.

Lemma mix_fill_is_Some (mp : gmap string (gmap string Z)) (l : list MixEntry)
    (e : string) :
  is_Some (mp !! e) → is_Some (mix_fill mp l !! e).
Proof.
  revert mp. induction l as [|m l IH]; intros mp Hmp; [done|].
  rewrite mix_fill_cons. apply IH. by apply lookup_alter_is_Some.
Qed.

Lemma mix_read_alter_eq (mp : gmap string (gmap string Z)) (e s : string) (c : Z) :
  is_Some (mp !! e) → mix_read (alter (<[s := c]>) e mp) s e = c.
Proof.
  intros [r Hr]. unfold mix_read. rewrite lookup_alter_eq, Hr. simpl.
  by rewrite lookup_insert_eq.
Qed.

Lemma mix_read_alter_ne (mp : gmap string (gmap string Z)) (e e' s s' : string)
    (c : Z) :
  ¬ (e' = e ∧ s' = s) →
  mix_read (alter (<[s' := c]>) e' mp) s e = mix_read mp s e.
Proof.
  intros Hne. unfold mix_read.
  destruct (decide (e' = e)) as [->|He]; [|by rewrite lookup_alter_ne].
  rewrite lookup_alter_eq. destruct (mp !! e) as [r|]; [simpl|done].
  rewrite lookup_insert_ne; [done|]. intros ->. by apply Hne.
Qed.

Lemma mix_fill_keep (mp : gmap string (gmap string Z)) (l : list MixEntry)
    (e s : string) :
  (∀ m, m ∈ l → ¬ of_pair e s m) →
  mix_read (mix_fill mp l) s e = mix_read mp s e.
Proof.
  revert mp. induction l as [|m l IH]; intros mp Hno; [done|].
  rewrite mix_fill_cons, IH by (intros m' Hm'; apply Hno; by right).
  apply mix_read_alter_ne. apply Hno. by left.
Qed.

Lemma mix_fill_last (mp : gmap string (gmap string Z)) (l1 l2 : list MixEntry)
    (m : MixEntry) :
  is_Some (mp !! m_entity m) →
  (∀ m', m' ∈ l2 → ¬ of_pair (m_entity m) (m_sentiment m) m') →
  mix_read (mix_fill mp (l1 ++ m :: l2)) (m_sentiment m) (m_entity m) = m_count m.
Proof.
  intros Hmp Hno. unfold mix_fill at 1. rewrite foldl_app. simpl.
  fold (mix_fill mp l1).
  match goal with
  | |- context [foldl ?f ?r l2] => change (foldl f r l2) with (mix_fill r l2)
  end.
  rewrite mix_fill_keep by done.
  by apply mix_read_alter_eq, mix_fill_is_Some.
Qed.

Lemma explorerMix_field (mix : list MixEntry) (s : string) :
  s ∈ classes →
  mx_field s (explorerMix mix) =
  mix_read (mix_fill (mix_init (set_of (m_entity <$> mix))) mix) s <$>
    set_of (m_entity <$> mix).
Proof.
  intros [->|[->| ->]]%classes_inv; reflexivity.
Qed.

(** C9.  When several rows of [mix] carry the same (entity, sentiment) pair,
    the last one in input order decides: for a row [m] of one of the three
    classes that no later row of the same pair follows, the entity's entry
    of [entityScores] holds [m]'s count in the field of that class, and the
    stacked series of [explorerMix] holds it at the entity's position.
    Earlier rows of the pair are overwritten, not added. *)
Theorem last_pair_wins (l1 l2 : list MixEntry) (m : MixEntry) :
  m_sentiment m ∈ classes →
  (∀ m', m' ∈ l2 → ¬ of_pair (m_entity m) (m_sentiment m) m') →
  let mix := l1 ++ m :: l2 in
  (m_entity m ∈ es_entity <$> entityScores mix ∧
   ∀ r, r ∈ entityScores mix → es_entity r = m_entity m →
        es_field (m_sentiment m) r = m_count m) ∧
  (m_entity m ∈ mx_x (explorerMix mix) ∧
   ∀ i, mx_x (explorerMix mix) !! i = Some (m_entity m) →
        mx_field (m_sentiment m) (explorerMix mix) !! i = Some (m_count m)).
Proof.
  intros Hs Hno mix.
  assert (m_entity m ∈ m_entity <$> mix) as Hin.
  { unfold mix. rewrite fmap_app, fmap_cons. set_solver. }
  split; split.
  - by rewrite entityScores_entities, set_of_elem_of.
  - intros r (e & He & ->)%entityScores_elem_of Heq. simpl in Heq. subst e.
    rewrite score_row_fields. by apply tally_of_last.
  - simpl. by apply set_of_elem_of.
  - intros i Hi. rewrite explorerMix_field by done. simpl in Hi.
    rewrite list_lookup_fmap, Hi. simpl. f_equal.
    apply mix_fill_last; [|done].
    apply mix_init_is_Some. by apply set_of_elem_of.
Qed.

Lemma last_pair_wins_witness :
  let mix := [mk "A" "Positive" 3; mk "B" "Negative" 9] ++
             mk "A" "Positive" 4 :: [mk "A" "Neutral" 1] in
  (es_entity <$> entityScores mix = ["B"; "A"]) ∧
  (es_pos <$> entityScores mix = [0; 4]) ∧
  mx_x (explorerMix mix) = ["A"; "B"] ∧
  mx_pos (explorerMix mix) = [4; 0] ∧
  (∀ r, r ∈ entityScores mix → es_entity r = "A" → es_field "Positive" r = 4) ∧
  (∀ i, mx_x (explorerMix mix) !! i = Some "A" →
        mx_field "Positive" (explorerMix mix) !! i = Some 4).
Proof.
  intros mix.
  assert ("Positive" ∈ classes) as Hs by (apply classes_inv; tauto).
  assert (∀ m', m' ∈ [mk "A" "Neutral" 1] → ¬ of_pair "A" "Positive" m') as Hno.
  { intros m' ->%list_elem_of_singleton [_ Hs']. discriminate Hs'. }
  pose proof (last_pair_wins [mk "A" "Positive" 3; mk "B" "Negative" 9]
                [mk "A" "Neutral" 1] (mk "A" "Positive" 4) Hs Hno) as [[_ H1] [_ H2]].
  split; [reflexivity|]. split; [reflexivity|]. split; [reflexivity|].
  split; [reflexivity|]. split; [exact H1|exact H2].
Defined.

(** ** BatchMerger *)

Lemma List_filter_decide {A} (f : A → bool) (P : A → Prop) `{∀ x, Decision (P x)}
    (l : list A) :
  (∀ x, f x = true ↔ P x) → List.filter f l = filter P l.
Proof.
  intros Hf. induction l as [|x l IH]; [done|].
  simpl. rewrite IH. destruct (f x) eqn:Hx.
  - rewrite filter_cons_True; [done|]. by apply Hf.
  - rewrite filter_cons_False; [done|]. rewrite <- Hf. congruence.
Qed.

Lemma truthy_text (r : gmap string string) :
  truthy (js_get (csv_obj r) "text") = true ↔ has_text r.
Proof.
  unfold js_get, csv_obj, has_text. rewrite lookup_fmap.
  destruct (r !! "text") as [s|]; simpl; [|done].
  rewrite negb_true_iff. destruct (String.eqb_spec s ""); split; congruence.
Qed.

Lemma batch_rows_filter (data : list (gmap string string)) :
  batch_rows data = filter has_text data.
Proof. apply List_filter_decide, truthy_text. Qed.

Lemma mapi_lookup {A B} (f : A → nat → B) (xs : list A) (i : nat) :
  mapi f xs !! i = (λ x, f x i) <$> xs !! i.
Proof. unfold mapi. apply list_lookup_imap. Qed.

Lemma mapi_length {A B} (f : A → nat → B) (xs : list A) :
  length (mapi f xs) = length xs.
Proof. unfold mapi. apply length_imap. Qed.

Lemma with_id_lookup_id (r : gmap string jsval) (i : nat) :
  with_id r i !! "id" = Some (default (JNum (Z.of_nat i + 1)) (r !! "id")).
Proof.
  unfold with_id, spread_over. rewrite lookup_union.
  destruct (r !! "id"); by rewrite lookup_insert_eq.
Qed.

Lemma with_id_lookup_ne (r : gmap string jsval) (i : nat) (k : string) :
  k ≠ "id" → with_id r i !! k = r !! k.
Proof.
  intros Hk. unfold with_id, spread_over.
  rewrite lookup_union, lookup_insert_ne, lookup_empty by done.
  by destruct (r !! k).
Qed.

Lemma merge_row_predicted (labels : list string) (row : gmap string string) (i : nat) :
  merge_row labels row i !! "predicted_sentiment" = Some (label_at labels i).
Proof. unfold merge_row. apply lookup_insert_eq. Qed.

Lemma merge_row_id (labels : list string) (row : gmap string string) (i : nat) :
  merge_row labels row i !! "id" =
  Some (from_option JStr (JNum (Z.of_nat i + 1)) (row !! "id")).
Proof.
  unfold merge_row. rewrite lookup_insert_ne by done.
  rewrite with_id_lookup_id. unfold csv_obj. rewrite lookup_fmap.
  by destruct (row !! "id").
Qed.

Lemma merge_row_other (labels : list string) (row : gmap string string) (i : nat)
    (k : string) :
  k ≠ "id" → k ≠ "predicted_sentiment" →
  merge_row labels row i !! k = JStr <$> row !! k.
Proof.
  intros Hid Hps. unfold merge_row.
  rewrite lookup_insert_ne, with_id_lookup_ne by done.
  unfold csv_obj. by rewrite lookup_fmap.
Qed.

Lemma batch_merge_lookup (data : list (gmap string string)) (labels : list string)
    (i : nat) :
  batch_merge data labels !! i =
  (λ row, merge_row labels row i) <$> batch_rows data !! i.
Proof. unfold batch_merge. apply mapi_lookup. Qed.

(** C5 at an uploaded row that has an [id] column of its own.  The labels
    are aligned with the surviving rows, yet the merged row's [id] is the
    uploaded "7" and not [i + 1]: the row is spread after the synthetic [id]
    and overwrites it. *)
Lemma batch_merge_uploaded_id :
  let data : list (gmap string string) := [ <["id" := "7"]> (<["text" := "hi"]> ∅) ] in
  let labels := ["Positive"] in
  length labels = length (batch_rows data) ∧
  batch_merge data labels !! 0%nat ≫= (.!! "id") = Some (JStr "7") ∧
  ¬ (∀ i row out, batch_rows data !! i = Some row →
       batch_merge data labels !! i = Some out →
       out !! "id" = Some (JNum (Z.of_nat i + 1))).
Proof.
  intros data labels.
  assert (batch_rows data = data) as Hrows by reflexivity.
  assert (batch_merge data labels !! 0%nat ≫= (.!! "id") = Some (JStr "7")) as Hid.
  { rewrite batch_merge_lookup, Hrows. simpl. by rewrite merge_row_id. }
  split; [reflexivity|]. split; [exact Hid|].
  intros Hclaim.
  destruct (batch_merge data labels !! 0%nat) as [out|] eqn:Hout; [|done].
  specialize (Hclaim 0%nat _ out (eq_refl : batch_rows data !! 0%nat = Some _) Hout).
  simpl in Hid. congruence.
Qed.

(** The merge on every input.  With a label array aligned with the
    surviving rows: the rows dropped are exactly those whose [text] is
    missing or empty (the others are kept, in order); the output is as long
    as the surviving rows; its [i]-th row has [predicted_sentiment =
    labels[i]], every other field of the surviving row unchanged, and an
    [id] that is the uploaded row's own [id] column when it has one, and
    [i + 1] otherwise. *)
Lemma batch_merge_spec (data : list (gmap string string)) (labels : list string) :
  length labels = length (batch_rows data) →
  batch_rows data = filter has_text data ∧
  length (batch_merge data labels) = length (batch_rows data) ∧
  ∀ i row, batch_rows data !! i = Some row →
    ∃ out label,
      batch_merge data labels !! i = Some out ∧
      labels !! i = Some label ∧
      out !! "predicted_sentiment" = Some (JStr label) ∧
      (row !! "id" = None → out !! "id" = Some (JNum (Z.of_nat i + 1))) ∧
      (∀ v, row !! "id" = Some v → out !! "id" = Some (JStr v)) ∧
      (∀ k, k ≠ "id" → k ≠ "predicted_sentiment" → out !! k = JStr <$> row !! k).
Proof.
  intros Hlen. split; [apply batch_rows_filter|].
  split; [apply mapi_length|].
  intros i row Hrow.
  destruct (lookup_lt_is_Some_2 labels i) as [label Hlabel].
  { rewrite Hlen. by eapply lookup_lt_Some. }
  exists (merge_row labels row i), label.
  split; [by rewrite batch_merge_lookup, Hrow|]. split; [done|].
  split. { rewrite merge_row_predicted. unfold label_at. by rewrite Hlabel. }
  split. { intros Hid. by rewrite merge_row_id, Hid. }
  split. { intros v Hid. by rewrite merge_row_id, Hid. }
  intros k ? ?. by apply merge_row_other.
Qed.

Lemma batch_merge_spec_witness :
  let data : list (gmap string string) :=
    [ <["text" := "good"]> (<["user" := "u1"]> ∅);
      <["text" := ""]> (<["user" := "u2"]> ∅);
      <["user" := "u3"]> ∅;
      <["text" := "bad"]> (<["id" := "7"]> ∅) ] in
  let labels := ["Positive"; "Negative"] in
  length labels = length (batch_rows data) ∧
  length (batch_merge data labels) = 2%nat ∧
  batch_rows data = filter has_text data.
Proof.
  intros data labels.
  assert (length labels = length (batch_rows data)) as Hlen by reflexivity.
  destruct (batch_merge_spec data labels Hlen) as (Hf & Hl & _).
  split; [exact Hlen|]. split; [exact Hl|exact Hf].
Defined.

(** C10.  The merged row is built from the synthetic [id], then the
    uploaded row's fields, then [predicted_sentiment], later writes
    replacing earlier ones: an [id] column of the uploaded row replaces
    [i + 1], while [predicted_sentiment] is [labels[i]] whether or not the
    uploaded row has a column of that name. *)
Theorem merge_precedence (data : list (gmap string string)) (labels : list string)
    (i : nat) (row : gmap string string) :
  batch_rows data !! i = Some row →
  ∃ out,
    batch_merge data labels !! i = Some out ∧
    out = <["predicted_sentiment" := label_at labels i]>
            (csv_obj row ∪ <["id" := JNum (Z.of_nat i + 1)]> ∅) ∧
    (∀ v, row !! "id" = Some v → out !! "id" = Some (JStr v)) ∧
    (row !! "id" = None → out !! "id" = Some (JNum (Z.of_nat i + 1))) ∧
    out !! "predicted_sentiment" = Some (label_at labels i) ∧
    (∀ label, labels !! i = Some label →
       out !! "predicted_sentiment" = Some (JStr label)).
Proof.
  intros Hrow. exists (merge_row labels row i).
  split; [by rewrite batch_merge_lookup, Hrow|]. split; [done|].
  split. { intros v Hv. by rewrite merge_row_id, Hv. }
  split. { intros Hv. by rewrite merge_row_id, Hv. }
  split; [apply merge_row_predicted|].
  intros label Hlabel. rewrite merge_row_predicted. unfold label_at.
  by rewrite Hlabel.
Qed.

Lemma merge_precedence_witness :
  let data : list (gmap string string) :=
    [ <["text" := ""]> ∅;
      <["id" := "7"]> (<["text" := "hi"]> (<["predicted_sentiment" := "Neutral"]> ∅)) ] in
  let labels := ["Positive"] in
  ∃ row out,
    batch_rows data !! 0%nat = Some row ∧
    row !! "predicted_sentiment" = Some "Neutral" ∧
    batch_merge data labels !! 0%nat = Some out ∧
    out !! "id" = Some (JStr "7") ∧
    out !! "predicted_sentiment" = Some (JStr "Positive").
Proof.
  intros data labels.
  set (row := <["id" := "7"]> (<["text" := "hi"]>
                (<["predicted_sentiment" := "Neutral"]> (∅ : gmap string string)))).
  assert (batch_rows data !! 0%nat = Some row) as Hrow by reflexivity.
  destruct (merge_precedence data labels 0 row Hrow) as (out & Hout & _ & Hid & _ & _ & Hps).
  exists row, out.
  split; [exact Hrow|]. split; [reflexivity|]. split; [exact Hout|].
  split; [apply Hid; reflexivity|apply Hps; reflexivity].
Defined.

(** ** CsvExporter *)

Lemma strip_id_lookup (row : gmap string jsval) (k : string) :
  strip_id row !! k = if decide (k = "id") then None else row !! k.
Proof.
  unfold strip_id. case_decide as Hk.
  - subst k. apply lookup_delete_eq.
  - by apply lookup_delete_ne.
Qed.

(** C7.  In both downloads the rows handed to the CSV serializer are the
    rows of the exported array (the batch rows, resp. the filtered sample
    rows), position by position, each with the [id] key removed and every
    other key with its value unchanged; no serialized row has an [id]
    key. *)
Theorem export_rows_spec (batchPredRows sampleRows : list (gmap string jsval))
    (localSearch : string) :
  let filtered := filteredSampleRows sampleRows localSearch in
  (length (downloadCSV_rows batchPredRows) = length batchPredRows ∧
   (∀ i row, batchPredRows !! i = Some row →
      ∃ out, downloadCSV_rows batchPredRows !! i = Some out ∧
        out = delete "id" row ∧
        out !! "id" = None ∧
        ∀ k, k ≠ "id" → out !! k = row !! k) ∧
   (∀ out, out ∈ downloadCSV_rows batchPredRows → out !! "id" = None)) ∧
  (length (downloadFilteredSamplesCsv_rows sampleRows localSearch) = length filtered ∧
   (∀ i row, filtered !! i = Some row →
      ∃ out, downloadFilteredSamplesCsv_rows sampleRows localSearch !! i = Some out ∧
        out = delete "id" row ∧
        out !! "id" = None ∧
        ∀ k, k ≠ "id" → out !! k = row !! k) ∧
   (∀ out, out ∈ downloadFilteredSamplesCsv_rows sampleRows localSearch →
      out !! "id" = None)).
Proof.
  intros filtered.
  unfold downloadCSV_rows, downloadFilteredSamplesCsv_rows. fold filtered.
  assert (∀ rows : list (gmap string jsval),
            (∀ i row, rows !! i = Some row →
               ∃ out, (strip_id <$> rows) !! i = Some out ∧
                 out = delete "id" row ∧ out !! "id" = None ∧
                 ∀ k, k ≠ "id" → out !! k = row !! k) ∧
            (∀ out, out ∈ strip_id <$> rows → out !! "id" = None)) as Hstrip.
  { intros rows. split.
    - intros i row Hrow. exists (strip_id row).
      rewrite list_lookup_fmap, Hrow. split; [done|]. split; [done|].
      split; [by rewrite strip_id_lookup|].
      intros k Hk. rewrite strip_id_lookup. by rewrite decide_False.
    - intros out (row & -> & _)%list_elem_of_fmap. by rewrite strip_id_lookup. }
  split.
  - split; [apply length_fmap|apply Hstrip].
  - split; [apply length_fmap|apply Hstrip].
Qed.

(** ** Strings *)

Lemma prefix_spec (q s : string) :
  String.prefix q s = true ↔ ∃ post, s = (q ++ post)%string.
Proof.
  revert s. induction q as [|a q IH]; intros s; simpl.
  - destruct s; (split; [intros _; eauto|done]).
  - destruct s as [|b s]; simpl.
    + split; [done|]. by intros [post ?].
    + destruct (ascii_dec a b) as [->|Hne].
      * rewrite IH. split; intros [post Hpost]; exists post.
        -- subst s. reflexivity.
        -- change (String b s = String b (q +:+ post)) in Hpost. congruence.
      * split; [done|]. intros [post Hpost].
        change (String b s = String a (q +:+ post)) in Hpost. congruence.
Qed.

Lemma includes_spec (s q : string) : includes s q = true ↔ contains s q.
Proof.
  unfold contains. induction s as [|c s IH].
  - cbn [includes]. rewrite orb_false_r, prefix_spec. split.
    + intros [post ->]. by exists EmptyString, post.
    + intros ([|? pre] & post & Heq); [by exists post|done].
  - cbn [includes]. rewrite orb_true_iff, IH, prefix_spec. split.
    + intros [[post ->]|(pre & post & ->)].
      * by exists EmptyString, post.
      * by exists (String c pre), post.
    + intros ([|c' pre] & post & Heq).
      * left. by exists post.
      * right. change (String c s = String c' (pre +:+ q +:+ post)) in Heq.
        injection Heq as -> ->. by exists pre, post.
Qed.

Lemma trimStart_empty (s : string) : trimStart s = EmptyString ↔ all_space s = true.
Proof.
  induction s as [|c s IH]; simpl; [done|].
  destruct (is_space c); simpl; [done|]. split; discriminate.
Qed.

Lemma trimStart_all_space (s : string) :
  all_space (trimStart s) = true → trimStart s = EmptyString.
Proof.
  induction s as [|c s IH]; simpl; [done|].
  destruct (is_space c) eqn:Hc; [done|]. simpl. by rewrite Hc.
Qed.

Lemma str_rev_onto_empty (s acc : string) :
  str_rev_onto s acc = EmptyString ↔ s = EmptyString ∧ acc = EmptyString.
Proof.
  revert acc. induction s as [|c s IH]; intros acc; simpl.
  - split; [by intros ->|by intros [_ ->]].
  - rewrite IH. split; intros [? ?]; discriminate.
Qed.

Lemma all_space_rev_onto (s acc : string) :
  all_space (str_rev_onto s acc) = (all_space s && all_space acc)%bool.
Proof.
  revert acc. induction s as [|c s IH]; intros acc; simpl; [done|].
  rewrite IH. simpl. by destruct (is_space c), (all_space s), (all_space acc).
Qed.

Lemma trim_empty (s : string) : trim s = EmptyString ↔ all_space s = true.
Proof.
  unfold trim, str_rev. rewrite str_rev_onto_empty, trimStart_empty.
  rewrite all_space_rev_onto. simpl. rewrite andb_true_r. split.
  - intros [Hs _]. by apply trimStart_empty, trimStart_all_space.
  - intros Hs%trimStart_empty. by rewrite Hs.
Qed.

Lemma toLowerCase_empty (s : string) : toLowerCase s = EmptyString ↔ s = EmptyString.
Proof. by destruct s. Qed.

Lemma query_blank (query : string) :
  String.eqb (toLowerCase (trim query)) "" = all_space query.
Proof.
  destruct (String.eqb_spec (toLowerCase (trim query)) "") as [Heq|Hne].
  - symmetry. by apply trim_empty, toLowerCase_empty.
  - destruct (all_space query) eqn:Hq; [|done].
    destruct Hne. by apply toLowerCase_empty, trim_empty.
Qed.

(** ** RowFilter *)

Lemma sample_match_spec (q : string) (r : gmap string jsval) :
  sample_match q r = true ↔
  ∃ k, k ∈ sample_fields ∧ contains (field_text r k) q.
Proof.
  unfold sample_match, sample_fields. rewrite !orb_true_iff, !includes_spec.
  split.
  - intros [[[?|?]|?]|?]; eexists; (split; [|eassumption]); set_solver.
  - intros (k & Hk & Hc). set_unfold in Hk.
    destruct Hk as [->|[->|[->|[->|[]]]]]; tauto.
Qed.

Lemma leaderboard_match_spec (q : string) (r : gmap string jsval) :
  leaderboard_match q r = true ↔
  ∃ k, k ∈ leaderboard_fields ∧ contains (field_text r k) q.
Proof.
  unfold leaderboard_match, leaderboard_fields. rewrite includes_spec. split.
  - intros ?. exists "entity". split; [set_solver|done].
  - intros (k & ->%list_elem_of_singleton & Hc). done.
Qed.

Lemma filteredSampleRows_unfold (rows : list (gmap string jsval)) (query : string) :
  filteredSampleRows rows query =
  if all_space query then rows
  else List.filter (sample_match (toLowerCase (trim query))) rows.
Proof.
  unfold filteredSampleRows. rewrite query_blank.
  destruct rows; [by destruct (all_space query)|done].
Qed.

Lemma filteredLeaderboardRows_unfold (rows : list (gmap string jsval))
    (query : string) :
  filteredLeaderboardRows rows query =
  if all_space query then rows
  else List.filter (leaderboard_match (toLowerCase (trim query))) rows.
Proof.
  unfold filteredLeaderboardRows. rewrite query_blank.
  destruct rows; [by destruct (all_space query)|done].
Qed.

(** The filters, for every row array and query: a query that is empty or
    only white space returns the rows unchanged; otherwise the result is the
    subsequence of the rows one of whose matched fields, read as
    [String(v || "")] and lower-cased, contains the trimmed, lower-cased
    query. *)
Lemma row_filter_spec (rows : list (gmap string jsval)) (query : string) :
  let q := toLowerCase (trim query) in
  (all_space query = true →
     filteredSampleRows rows query = rows ∧
     filteredLeaderboardRows rows query = rows) ∧
  (all_space query = false →
     filteredSampleRows rows query = List.filter (sample_match q) rows ∧
     filteredLeaderboardRows rows query = List.filter (leaderboard_match q) rows) ∧
  (∀ r, sample_match q r = true ↔
        ∃ k, k ∈ sample_fields ∧ contains (field_text r k) q) ∧
  (∀ r, leaderboard_match q r = true ↔
        ∃ k, k ∈ leaderboard_fields ∧ contains (field_text r k) q).
Proof.
  intros q. rewrite filteredSampleRows_unfold, filteredLeaderboardRows_unfold.
  split; [|split; [|split]].
  - by intros ->.
  - by intros ->.
  - apply sample_match_spec.
  - apply leaderboard_match_spec.
Qed.

Example filteredSampleRows_case_insensitive :
  filteredSampleRows
    (sampleRows [sk (JNum 7) "Nvidia" "Neutral" "first"; sk (JNum 8) "Amazon" "Positive" "Great"])
    "  gREAt " =
  [with_id (sample_obj (sk (JNum 8) "Amazon" "Positive" "Great")) 1].
Proof. reflexivity. Qed.

(** C6 at a sample whose [tweet_id] is the number 0.  The identifier prints
    as "0", which contains the query "0", but [r.tweet_id || ""] reads the
    falsy 0 as the empty string: the row is left out, while the row with
    identifier 10 is returned for the same query. *)
Lemma sample_filter_zero_id :
  let rows := sampleRows samples_zero_id in
  let r0 := with_id (sample_obj (sk (JNum 0) "Nvidia" "Neutral" "first")) 0 in
  let r1 := with_id (sample_obj (sk (JNum 10) "Nvidia" "Neutral" "second")) 1 in
  rows = [r0; r1] ∧
  js_get r0 "tweet_id" = JNum 0 ∧
  contains (toLowerCase (js_String (js_get r0 "tweet_id"))) (toLowerCase (trim "0")) ∧
  field_text r0 "tweet_id" = "" ∧
  filteredSampleRows rows "0" = [r1].
Proof.
  intros rows r0 r1.
  split; [reflexivity|]. split; [reflexivity|]. split.
  { by exists EmptyString, EmptyString. }
  split; reflexivity.
Qed.

(** * Further properties of the aggregations *)

(** ** Stability of the sort *)

(** Elements that the comparator never moves past each other keep their
    input order: a class [P] of elements no two of which compare as
    "after" is listed by the sorted array in the order of the input. *)
Lemma sort_insert_filter {A} (after : A → A → bool) (P : A → Prop)
    `{∀ x, Decision (P x)} (x : A) (l : list A) :
  (∀ a b, after a b = true → ¬ (P a ∧ P b)) →
  filter P (sort_insert after x l) = filter P (x :: l).
Proof.
  intros Hafter. induction l as [|y l IH]; simpl; [done|].
  destruct (after x y) eqn:Hxy; [|done].
  rewrite filter_cons, IH, !(filter_cons _ x), (filter_cons _ y).
  destruct (decide (P x)) as [Hx|Hx], (decide (P y)) as [Hy|Hy]; try done.
  by destruct (Hafter x y Hxy).
Qed.

Lemma js_sort_filter {A} (after : A → A → bool) (P : A → Prop)
    `{∀ x, Decision (P x)} (l : list A) :
  (∀ a b, after a b = true → ¬ (P a ∧ P b)) →
  filter P (js_sort after l) = filter P l.
Proof.
  intros Hafter. induction l as [|x l IH]; simpl; [done|].
  rewrite sort_insert_filter by done. by rewrite !filter_cons, IH.
Qed.

(** ** Ties in [entityScores] *)

Lemma entityScores_length (mix : list MixEntry) :
  length (entityScores mix) = length (set_of (m_entity <$> mix)).
Proof.
  rewrite <- (length_fmap es_entity). by rewrite entityScores_entities.
Qed.

(** Entities with the same total are listed in the order in which they
    first appear in [mix]: the list of their names is a subsequence of the
    first-appearance order (the sort is stable and the map enumerates its
    keys in insertion order). *)
Theorem entityScores_ties (mix : list MixEntry) (t : Z) :
  es_entity <$> filter (λ r, es_total r = t) (entityScores mix)
    `sublist_of` set_of (m_entity <$> mix).
Proof.
  unfold entityScores. rewrite js_sort_filter.
  - rewrite <- tally_map_keys. unfold OMap.keys.
    assert ((tally_map mix).*1 = es_entity <$> (score_row <$> tally_map mix)) as ->.
    { rewrite <- list_fmap_compose. apply list_fmap_ext. by intros ? [e v]. }
    apply fmap_sublist, sublist_filter.
  - intros a b Hab%Z.ltb_lt [Ha Hb]. lia.
Qed.

Lemma sublist_filter_mono {A} (P : A → Prop) `{∀ x, Decision (P x)} (l k : list A) :
  l `sublist_of` k → filter P l `sublist_of` filter P k.
Proof.
  induction 1 as [|x l k _ IH|x l k _ IH]; [done| |].
  - rewrite !filter_cons. case_decide; [by apply sublist_skip|done].
  - rewrite filter_cons. case_decide; [by apply sublist_cons|done].
Qed.

(** ** Size and ties of the two rankings *)

Lemma top_sublist (after : EntityScore → EntityScore → bool)
    (scores : list EntityScore) :
  ∃ l, take 8 (js_sort after (take 20 scores)) `sublist_of` l ∧
       l ≡ₚ take 20 scores.
Proof.
  exists (js_sort after (take 20 scores)). split; [apply sublist_take|].
  apply js_sort_perm.
Qed.

Lemma top_entities_NoDup (after : EntityScore → EntityScore → bool)
    (mix : list MixEntry) :
  NoDup (es_entity <$> take 8 (js_sort after (take 20 (entityScores mix)))).
Proof.
  assert (∀ n (l : list EntityScore),
            NoDup (es_entity <$> l) → NoDup (es_entity <$> take n l)) as Htake.
  { intros n l Hl.
    apply (sublist_NoDup _ (es_entity <$> l)); [done|].
    apply fmap_sublist, sublist_take. }
  apply Htake. rewrite js_sort_perm. apply Htake.
  rewrite entityScores_entities. apply set_of_NoDup.
Qed.

(** Both rankings have [min 8 n] entries for [n] distinct entities in [mix],
    and no entity twice; with at most 8 distinct entities both rankings
    list every entity (the same entities appear in the "most positive" and
    in the "most negative" chart). *)
Theorem top_entities_count (mix : list MixEntry) :
  let scores := entityScores mix in
  let n := length (set_of (m_entity <$> mix)) in
  length (topPositiveEntities scores) = Nat.min 8 n ∧
  length (topNegativeEntities scores) = Nat.min 8 n ∧
  NoDup (es_entity <$> topPositiveEntities scores) ∧
  NoDup (es_entity <$> topNegativeEntities scores) ∧
  ((n ≤ 8)%nat →
   topPositiveEntities scores ≡ₚ scores ∧ topNegativeEntities scores ≡ₚ scores).
Proof.
  intros scores n.
  unfold topPositiveEntities, topNegativeEntities, slice0.
  assert (length scores = n) as Hn by apply entityScores_length.
  split; [|split; [|split; [|split]]].
  - rewrite length_take, js_sort_length, length_take. lia.
  - rewrite length_take, js_sort_length, length_take. lia.
  - apply top_entities_NoDup.
  - apply top_entities_NoDup.
  - intros Hle.
    rewrite (take_ge scores 20) by lia.
    rewrite !take_ge by (rewrite js_sort_length; lia).
    split; apply js_sort_perm.
Qed.

Lemma top_entities_count_witness :
  let mix := [mk "A" "Positive" 5; mk "B" "Negative" 2; mk "A" "Neutral" 1] in
  let scores := entityScores mix in
  (length (set_of (m_entity <$> mix)) ≤ 8)%nat ∧
  topPositiveEntities scores ≡ₚ scores ∧ topNegativeEntities scores ≡ₚ scores.
Proof.
  intros mix scores.
  assert (length (set_of (m_entity <$> mix)) ≤ 8)%nat as Hle by (vm_compute; lia).
  split; [exact Hle|].
  exact (proj2 (proj2 (proj2 (proj2 (top_entities_count mix)))) Hle).
Defined.

Lemma by_score_desc_strict (a b : EntityScore) :
  by_score_desc a b = true → (es_score a < es_score b)%Q.
Proof.
  unfold by_score_desc. destruct (Qlt_le_dec _ _) as [Hlt|]; [intros _|done].
  by apply Qlt_minus_iff.
Qed.

Lemma by_score_asc_strict (a b : EntityScore) :
  by_score_asc a b = true → (es_score b < es_score a)%Q.
Proof.
  unfold by_score_asc. destruct (Qlt_le_dec _ _) as [Hlt|]; [intros _|done].
  by apply Qlt_minus_iff.
Qed.

(** Entities with the same score appear in either ranking in the order of
    [entityScores], i.e. the more discussed one first: ties in score are
    broken by volume in both charts. *)
Theorem top_entities_ties (mix : list MixEntry) (s : Q) :
  let scores := entityScores mix in
  filter (λ r, es_score r == s)%Q (topPositiveEntities scores) `sublist_of` scores ∧
  filter (λ r, es_score r == s)%Q (topNegativeEntities scores) `sublist_of` scores.
Proof.
  intros scores. unfold topPositiveEntities, topNegativeEntities, slice0.
  split.
  - transitivity (filter (λ r, es_score r == s)%Q (js_sort by_score_desc (take 20 scores))).
    { apply sublist_filter_mono, sublist_take. }
    rewrite js_sort_filter.
    + transitivity (take 20 scores); [apply sublist_filter|apply sublist_take].
    + intros a b Hab%by_score_desc_strict [Ha Hb].
      rewrite Ha, Hb in Hab. by apply Qlt_irrefl in Hab.
  - transitivity (filter (λ r, es_score r == s)%Q (js_sort by_score_asc (take 20 scores))).
    { apply sublist_filter_mono, sublist_take. }
    rewrite js_sort_filter.
    + transitivity (take 20 scores); [apply sublist_filter|apply sublist_take].
    + intros a b Hab%by_score_asc_strict [Ha Hb].
      rewrite Ha, Hb in Hab. by apply Qlt_irrefl in Hab.
Qed.

(** ** The stacked series against the entity scores *)

Lemma mix_init_lookup (entities : list string) (e : string) :
  e ∈ entities → mix_init entities !! e = Some mix_record0.
Proof.
  unfold mix_init. induction entities as [|x l IH] using rev_ind.
  - by intros ?%elem_of_nil.
  - rewrite foldl_snoc. intros Hin.
    destruct (decide (x = e)) as [->|Hne]; [apply lookup_insert_eq|].
    rewrite lookup_insert_ne by done. apply IH. set_solver.
Qed.

Lemma mix_fill_tally (mp : gmap string (gmap string Z)) (l : list MixEntry)
    (row : Tally) (e s : string) :
  s ∈ classes → is_Some (mp !! e) →
  mix_read mp s e = tally_field s row →
  mix_read (mix_fill mp l) s e = tally_field s (tally_from row l e).
Proof.
  intros Hs. revert mp row. induction l as [|m l IH]; intros mp row Hmp Hrow; [done|].
  rewrite mix_fill_cons. unfold tally_from. simpl.
  apply IH; [by apply lookup_alter_is_Some|].
  destruct (decide (m_entity m = e)) as [<-|He].
  - destruct (decide (m_sentiment m = s)) as [<-|Hms].
    + rewrite mix_read_alter_eq by done. by rewrite tally_write_field_eq.
    + rewrite mix_read_alter_ne by tauto. by rewrite tally_write_field_ne.
  - by rewrite mix_read_alter_ne by tauto.
Qed.

Lemma explorerMix_read (mix : list MixEntry) (e s : string) :
  s ∈ classes → e ∈ m_entity <$> mix →
  mix_read (mix_fill (mix_init (set_of (m_entity <$> mix))) mix) s e =
  tally_field s (tally_of mix e).
Proof.
  intros Hs He%set_of_elem_of. apply mix_fill_tally; [done| |].
  - by apply mix_init_is_Some.
  - unfold mix_read. rewrite mix_init_lookup by done.
    apply classes_inv in Hs as [->|[->| ->]]; reflexivity.
Qed.

Lemma set_of_snoc (xs : list string) (x : string) :
  set_of (xs ++ [x]) = if decide (x ∈ xs) then set_of xs else set_of xs ++ [x].
Proof.
  assert (set_of (xs ++ [x]) = set_add (set_of xs) x) as ->.
  { unfold set_of. by rewrite foldl_snoc. }
  unfold set_add. destruct (decide (x ∈ xs)) as [Hin|Hin].
  - rewrite decide_True; [done|]. by apply set_of_elem_of.
  - rewrite decide_False; [done|]. by rewrite set_of_elem_of.
Qed.

(** [set_of] lists by first appearance: of two of its elements, the earlier
    one occurs in a prefix of the input in which the later one does not. *)
Lemma set_of_first_appearance (xs : list string) (i j : nat) (e e' : string) :
  set_of xs !! i = Some e → set_of xs !! j = Some e' → (i < j)%nat →
  ∃ l1 l2, xs = l1 ++ l2 ∧ e ∈ l1 ∧ e' ∉ l1.
Proof.
  revert i j e e'. induction xs as [|x xs IH] using rev_ind; intros i j e e'.
  { intros Hi. by destruct i. }
  rewrite set_of_snoc. case_decide as Hx.
  - intros Hi Hj Hlt. destruct (IH i j e e' Hi Hj Hlt) as (l1 & l2 & -> & ? & ?).
    exists l1, (l2 ++ [x]). by rewrite app_assoc.
  - intros Hi Hj Hlt.
    assert (i < length (set_of xs))%nat as Hilen.
    { apply lookup_lt_Some in Hj. rewrite length_app in Hj. simpl in Hj. lia. }
    rewrite lookup_app_l in Hi by done.
    destruct (decide (j < length (set_of xs))%nat) as [Hjlen|Hjlen].
    + rewrite lookup_app_l in Hj by done.
      destruct (IH i j e e' Hi Hj Hlt) as (l1 & l2 & -> & ? & ?).
      exists l1, (l2 ++ [x]). by rewrite app_assoc.
    + rewrite lookup_app_r in Hj by lia.
      apply list_lookup_singleton_Some in Hj as [_ <-].
      exists xs, [x]. split; [done|]. split; [|done].
      apply set_of_elem_of. by eapply list_elem_of_lookup_2.
Qed.

(** The labels of the stacked chart are the distinct entities of [mix],
    each once, in the order of their first appearance (of two labels, the
    earlier one occurs in a prefix of [mix] in which the later one does
    not), and the three series are aligned with them: one value per
    label. *)
Theorem explorerMix_aligned (mix : list MixEntry) :
  let x := mx_x (explorerMix mix) in
  NoDup x ∧
  (∀ e, e ∈ x ↔ e ∈ m_entity <$> mix) ∧
  (∀ i j e e', x !! i = Some e → x !! j = Some e' → (i < j)%nat →
     ∃ l1 l2, mix = l1 ++ l2 ∧ e ∈ m_entity <$> l1 ∧ e' ∉ m_entity <$> l1) ∧
  length (mx_neg (explorerMix mix)) = length x ∧
  length (mx_neu (explorerMix mix)) = length x ∧
  length (mx_pos (explorerMix mix)) = length x.
Proof.
  simpl. split; [apply set_of_NoDup|]. split; [apply set_of_elem_of|].
  split; [|by rewrite !length_fmap].
  intros i j e e' Hi Hj Hlt.
  destruct (set_of_first_appearance _ i j e e' Hi Hj Hlt) as (k1 & k2 & Heq & ? & ?).
  apply fmap_app_inv in Heq as (l1 & l2 & -> & -> & ->). by exists l1, l2.
Qed.

(** The stacked chart and the entity scores agree: at the position of an
    entity, the three series hold the [neg], [neu] and [pos] of that
    entity's score entry. *)
Theorem explorerMix_matches_entityScores (mix : list MixEntry) (i : nat)
    (e : string) :
  mx_x (explorerMix mix) !! i = Some e →
  ∃ r, r ∈ entityScores mix ∧ es_entity r = e ∧
    mx_neg (explorerMix mix) !! i = Some (es_neg r) ∧
    mx_neu (explorerMix mix) !! i = Some (es_neu r) ∧
    mx_pos (explorerMix mix) !! i = Some (es_pos r).
Proof.
  simpl. intros Hi.
  assert (e ∈ m_entity <$> mix) as He.
  { apply set_of_elem_of. by eapply list_elem_of_lookup_2. }
  exists (score_row (e, tally_of mix e)).
  split; [apply entityScores_elem_of; eauto|]. split; [done|].
  rewrite !list_lookup_fmap, Hi. simpl.
  rewrite !explorerMix_read by (done || apply classes_inv; tauto).
  done.
Qed.

Lemma explorerMix_matches_entityScores_witness :
  let mix := [mk "A" "Positive" 3; mk "B" "Negative" 9; mk "A" "Positive" 4] in
  mx_x (explorerMix mix) !! 0%nat = Some "A" ∧
  ∃ r, r ∈ entityScores mix ∧ es_entity r = "A" ∧
    mx_pos (explorerMix mix) !! 0%nat = Some (es_pos r).
Proof.
  intros mix.
  assert (mx_x (explorerMix mix) !! 0%nat = Some "A") as Hi by reflexivity.
  split; [exact Hi|].
  destruct (explorerMix_matches_entityScores mix 0 "A" Hi) as (r & Hr & He & _ & _ & Hp).
  exists r. split; [exact Hr|]. split; [exact He|exact Hp].
Defined.

(** ** The sentiment index: order of the distribution, gauge *)

Lemma class_count_perm (l l' : list DistributionEntry) (s : string) (c : Z) :
  NoDup (d_sentiment <$> l) → l ≡ₚ l' →
  class_count l s c → class_count l' s c.
Proof.
  intros Hnd Hperm [(l1 & d & l2 & Heq & Hs & Hc & _)|[Hno ->]].
  - assert (d ∈ l') as (k1 & k2 & ->)%list_elem_of_split.
    { rewrite <- Hperm, Heq. set_solver. }
    left. exists k1, d, k2. split_and!; try done.
    intros d' Hd' Hs'. rewrite Hperm, fmap_app, fmap_cons in Hnd.
    apply NoDup_app in Hnd as (_ & _ & [Hnin _]%NoDup_cons).
    apply Hnin. apply list_elem_of_fmap. exists d'. split; [congruence|done].
  - right. split; [|done]. intros d Hd. apply Hno. by rewrite Hperm.
Qed.

Lemma dist_get_perm (l l' : list DistributionEntry) (s : string) :
  NoDup (d_sentiment <$> l) → l ≡ₚ l' →
  dist_get (dist_map l) s = dist_get (dist_map l') s.
Proof.
  intros Hnd Hperm. destruct (class_count_total l s) as [c Hc].
  rewrite (dist_map_lookup l s c Hc).
  symmetry. apply dist_map_lookup. by apply (class_count_perm l).
Qed.

(** When every sentiment is listed once, the index does not depend on the
    order of the distribution entries. *)
Theorem sentimentIndex_order_irrelevant (l l' : list DistributionEntry) :
  NoDup (d_sentiment <$> l) → l ≡ₚ l' →
  sentimentIndex l = sentimentIndex l'.
Proof.
  intros Hnd Hperm. unfold sentimentIndex.
  by rewrite !(dist_get_perm l l').
Qed.

Lemma sentimentIndex_order_irrelevant_witness :
  let l := [dk "Positive" 60; dk "Negative" 20; dk "Neutral" 20] in
  let l' := [dk "Neutral" 20; dk "Positive" 60; dk "Negative" 20] in
  NoDup (d_sentiment <$> l) ∧ l ≡ₚ l' ∧ sentimentIndex l = sentimentIndex l'.
Proof.
  intros l l'.
  assert (NoDup (d_sentiment <$> l)) as Hnd by compute_done.
  assert (l ≡ₚ l') as Hperm.
  { unfold l, l'. etransitivity; [|apply Permutation_swap].
    apply perm_skip, Permutation_swap. }
  split; [exact Hnd|]. split; [exact Hperm|].
  exact (sentimentIndex_order_irrelevant l l' Hnd Hperm).
Defined.

Lemma sentimentIndex_range (distribution : list DistributionEntry) :
  Forall (λ d, 0 ≤ d_count d) distribution →
  (-1 <= sentimentIndex distribution <= 1)%Q.
Proof.
  intros Hnn.
  destruct (class_count_total distribution "Positive") as [p Hp].
  destruct (class_count_total distribution "Negative") as [n Hn].
  destruct (class_count_total distribution "Neutral") as [u Hu].
  pose proof (class_count_nonneg _ _ _ Hnn Hp).
  pose proof (class_count_nonneg _ _ _ Hnn Hn).
  pose proof (class_count_nonneg _ _ _ Hnn Hu).
  unfold sentimentIndex.
  rewrite (dist_map_lookup _ _ _ Hp), (dist_map_lookup _ _ _ Hn),
    (dist_map_lookup _ _ _ Hu).
  destruct (or_one_pos (n + u + p)) as [Hmax Hpos]; [lia|].
  apply qdiv_bounds; [done|]. lia.
Qed.

(** With non-negative counts the progress bar under the sentiment index is
    given a value between 0 and 100. *)
Theorem gauge_range (distribution : list DistributionEntry) :
  Forall (λ d, 0 ≤ d_count d) distribution →
  (0 <= gauge (sentimentIndex distribution) <= 100)%Q.
Proof.
  intros [Hlo Hhi]%sentimentIndex_range. unfold gauge.
  set (x := sentimentIndex distribution) in *.
  assert (0 <= x + 1)%Q as H0.
  { exact (Qplus_le_compat (-1) x 1 1 Hlo (Qle_refl 1)). }
  assert (x + 1 <= 2)%Q as H2.
  { exact (Qplus_le_compat x 1 1 1 Hhi (Qle_refl 1)). }
  split.
  - apply Qmult_le_0_compat; [|done].
    apply Qle_shift_div_l; [done|]. by rewrite Qmult_0_l.
  - apply (Qmult_le_compat_r ((x + 1) / 2) 1 100); [|done].
    apply Qle_shift_div_r; [done|]. by rewrite Qmult_1_l.
Qed.

Lemma gauge_range_witness :
  let distribution := [dk "Positive" 1; dk "Negative" 3] in
  Forall (λ d, 0 ≤ d_count d) distribution ∧
  (0 <= gauge (sentimentIndex distribution) <= 100)%Q.
Proof.
  intros distribution.
  assert (Forall (λ d, 0 ≤ d_count d) distribution) as Hnn.
  { repeat constructor; vm_compute; discriminate. }
  split; [exact Hnn|]. exact (gauge_range distribution Hnn).
Defined.

(** * Further properties of the row filters *)

(** ** [toLowerCase] and [trim] on queries *)

Lemma lower_ascii_idem (c : ascii) : lower_ascii (lower_ascii c) = lower_ascii c.
Proof. destruct c as [[] [] [] [] [] [] [] []]; reflexivity. Qed.

Lemma is_space_lower (c : ascii) : is_space (lower_ascii c) = is_space c.
Proof. destruct c as [[] [] [] [] [] [] [] []]; reflexivity. Qed.

Lemma toLowerCase_idem (s : string) : toLowerCase (toLowerCase s) = toLowerCase s.
Proof. induction s as [|c s IH]; simpl; [done|]. by rewrite lower_ascii_idem, IH. Qed.

Lemma toLowerCase_trimStart (s : string) :
  toLowerCase (trimStart s) = trimStart (toLowerCase s).
Proof.
  induction s as [|c s IH]; simpl; [done|].
  rewrite is_space_lower. by destruct (is_space c).
Qed.

Lemma toLowerCase_rev_onto (s acc : string) :
  toLowerCase (str_rev_onto s acc) = str_rev_onto (toLowerCase s) (toLowerCase acc).
Proof. revert acc. induction s as [|c s IH]; intros acc; simpl; [done|]. by rewrite IH. Qed.

Lemma toLowerCase_trim (s : string) : toLowerCase (trim s) = trim (toLowerCase s).
Proof.
  unfold trim, str_rev.
  by rewrite toLowerCase_rev_onto, toLowerCase_trimStart, toLowerCase_rev_onto,
    toLowerCase_trimStart.
Qed.

Lemma all_space_lower (s : string) : all_space (toLowerCase s) = all_space s.
Proof. induction s as [|c s IH]; simpl; [done|]. by rewrite is_space_lower, IH. Qed.

Lemma str_app_cons (c : ascii) (a b : string) :
  (String c a +:+ b) = String c (a +:+ b).
Proof. reflexivity. Qed.

Lemma str_app_assoc (a b c : string) : (a +:+ (b +:+ c)) = ((a +:+ b) +:+ c).
Proof. induction a as [|x a IH]; [done|]. by rewrite !str_app_cons, IH. Qed.

Lemma str_app_nil_r (a : string) : (a +:+ "") = a.
Proof. induction a as [|x a IH]; [done|]. by rewrite str_app_cons, IH. Qed.

Lemma str_rev_onto_app (s acc : string) : str_rev_onto s acc = (str_rev s +:+ acc).
Proof.
  unfold str_rev. revert acc. induction s as [|c s IH]; intros acc; simpl; [done|].
  rewrite IH, (IH (String c "")), <- str_app_assoc. done.
Qed.

Lemma str_rev_cons (c : ascii) (s : string) :
  str_rev (String c s) = (str_rev s +:+ String c "").
Proof. unfold str_rev at 1. simpl. apply str_rev_onto_app. Qed.

Lemma str_rev_app (a b : string) : str_rev (a +:+ b) = (str_rev b +:+ str_rev a).
Proof.
  induction a as [|c a IH].
  - by rewrite str_app_nil_r.
  - by rewrite str_app_cons, !str_rev_cons, IH, str_app_assoc.
Qed.

Lemma str_rev_involutive (s : string) : str_rev (str_rev s) = s.
Proof.
  induction s as [|c s IH]; [done|].
  by rewrite str_rev_cons, str_rev_app, IH.
Qed.

Lemma trimStart_split (s : string) :
  ∃ w, s = (w +:+ trimStart s) ∧ all_space w = true.
Proof.
  induction s as [|c s (w & Hw & Hsp)]; simpl.
  - by exists "".
  - destruct (is_space c) eqn:Hc.
    + exists (String c w). rewrite str_app_cons, <- Hw. simpl. by rewrite Hc.
    + by exists "".
Qed.

Lemma trimStart_length (s : string) :
  (String.length (trimStart s) ≤ String.length s)%nat.
Proof.
  induction s as [|c s IH]; simpl; [done|]. destruct (is_space c); simpl; lia.
Qed.

(** [trimStart] leaves a string alone exactly when it is empty or begins
    with a character that is not white space. *)
Lemma trimStart_fixed (s : string) :
  trimStart s = s ↔ match s with EmptyString => True | String c _ => is_space c = false end.
Proof.
  destruct s as [|c s]; simpl; [done|].
  destruct (is_space c) eqn:Hc; [|done]. split; [|done].
  intros Heq. pose proof (trimStart_length s) as Hlen.
  rewrite Heq in Hlen. simpl in Hlen. lia.
Qed.

Lemma trimStart_idem (s : string) : trimStart (trimStart s) = trimStart s.
Proof.
  induction s as [|c s IH]; simpl; [done|].
  destruct (is_space c) eqn:Hc; [done|]. simpl. by rewrite Hc.
Qed.

Lemma trim_starts_clean (s : string) : trimStart (trim s) = trim s.
Proof.
  unfold trim. set (t := trimStart s).
  destruct (trimStart_split (str_rev t)) as (w & Hw & _).
  set (a := trimStart (str_rev t)) in *.
  apply (f_equal str_rev) in Hw. rewrite str_rev_involutive, str_rev_app in Hw.
  apply trimStart_fixed. destruct (str_rev a) as [|c r] eqn:Ha; [done|].
  assert (trimStart t = t) as Ht by apply trimStart_idem.
  apply trimStart_fixed in Ht. rewrite Hw, str_app_cons in Ht. done.
Qed.

Lemma trim_idem (s : string) : trim (trim s) = trim s.
Proof.
  unfold trim at 1. rewrite trim_starts_clean. unfold trim.
  by rewrite str_rev_involutive, trimStart_idem.
Qed.

Lemma all_space_trim (s : string) : all_space (trim s) = all_space s.
Proof.
  destruct (all_space s) eqn:Hs.
  - apply trim_empty in Hs. by rewrite Hs.
  - destruct (all_space (trim s)) eqn:Ht; [|done].
    apply trim_empty in Ht. rewrite trim_idem in Ht.
    apply trim_empty in Ht. congruence.
Qed.

(** ** The filters as views of the rows *)

Lemma List_filter_sublist {A} (f : A → bool) (l : list A) :
  List.filter f l `sublist_of` l.
Proof.
  induction l as [|x l IH]; simpl; [done|].
  destruct (f x); [by apply sublist_skip|by apply sublist_cons].
Qed.

Lemma List_filter_idem {A} (f : A → bool) (l : list A) :
  List.filter f (List.filter f l) = List.filter f l.
Proof.
  induction l as [|x l IH]; simpl; [done|].
  destruct (f x) eqn:Hx; simpl; [|done]. by rewrite Hx, IH.
Qed.

Lemma List_filter_mono {A} (f g : A → bool) (l : list A) :
  (∀ x, f x = true → g x = true) →
  List.filter f l `sublist_of` List.filter g l.
Proof.
  intros Hfg. induction l as [|x l IH]; simpl; [done|].
  destruct (f x) eqn:Hf.
  - rewrite (Hfg x Hf). by apply sublist_skip.
  - destruct (g x); [by apply sublist_cons|done].
Qed.

Lemma contains_trans (s q2 q1 : string) :
  contains s q2 → contains q2 q1 → contains s q1.
Proof.
  intros (a & b & ->) (c & d & ->). exists (a +:+ c), (d +:+ b).
  by rewrite !str_app_assoc.
Qed.

Lemma contains_empty (q : string) : contains "" q → q = "".
Proof.
  intros ([|? a] & b & Heq); [|done]. by destruct q.
Qed.

Lemma filteredSampleRows_sublist (rows : list (gmap string jsval)) (query : string) :
  filteredSampleRows rows query `sublist_of` rows.
Proof.
  rewrite filteredSampleRows_unfold.
  destruct (all_space query); [done|apply List_filter_sublist].
Qed.

Lemma filteredLeaderboardRows_sublist (rows : list (gmap string jsval))
    (query : string) :
  filteredLeaderboardRows rows query `sublist_of` rows.
Proof.
  rewrite filteredLeaderboardRows_unfold.
  destruct (all_space query); [done|apply List_filter_sublist].
Qed.

(** Filtering never reorders, duplicates or invents rows, and filtering a
    result again with the same query changes nothing. *)
Theorem filter_is_stable_view (rows : list (gmap string jsval)) (query : string) :
  filteredSampleRows rows query `sublist_of` rows ∧
  filteredLeaderboardRows rows query `sublist_of` rows ∧
  filteredSampleRows (filteredSampleRows rows query) query =
    filteredSampleRows rows query ∧
  filteredLeaderboardRows (filteredLeaderboardRows rows query) query =
    filteredLeaderboardRows rows query.
Proof.
  rewrite !filteredSampleRows_unfold, !filteredLeaderboardRows_unfold.
  destruct (all_space query); [done|].
  split; [apply List_filter_sublist|]. split; [apply List_filter_sublist|].
  split; apply List_filter_idem.
Qed.

(** Letter case and surrounding white space of the query are irrelevant:
    the trimmed query and the lower-cased query select the same rows as the
    query itself. *)
Theorem filter_query_normalised (rows : list (gmap string jsval)) (query : string) :
  filteredSampleRows rows (trim query) = filteredSampleRows rows query ∧
  filteredSampleRows rows (toLowerCase query) = filteredSampleRows rows query ∧
  filteredLeaderboardRows rows (trim query) = filteredLeaderboardRows rows query ∧
  filteredLeaderboardRows rows (toLowerCase query) =
    filteredLeaderboardRows rows query.
Proof.
  rewrite !filteredSampleRows_unfold, !filteredLeaderboardRows_unfold.
  rewrite all_space_trim, all_space_lower, trim_idem.
  rewrite <- (toLowerCase_trim query), toLowerCase_idem. done.
Qed.

(** Refining the search narrows the result: when the normalised query [q1]
    occurs inside the normalised query [q2], every row selected by [q2] is
    selected by [q1], in the same order. *)
Theorem filter_refines (rows : list (gmap string jsval)) (q1 q2 : string) :
  contains (toLowerCase (trim q2)) (toLowerCase (trim q1)) →
  filteredSampleRows rows q2 `sublist_of` filteredSampleRows rows q1 ∧
  filteredLeaderboardRows rows q2 `sublist_of` filteredLeaderboardRows rows q1.
Proof.
  intros Hc. rewrite !filteredSampleRows_unfold, !filteredLeaderboardRows_unfold.
  destruct (all_space q1) eqn:H1.
  { destruct (all_space q2); [done|]. split; apply List_filter_sublist. }
  destruct (all_space q2) eqn:H2.
  { apply trim_empty in H2. rewrite H2 in Hc. apply contains_empty in Hc.
    apply toLowerCase_empty, trim_empty in Hc. congruence. }
  split; apply List_filter_mono; intros r.
  - rewrite !sample_match_spec. intros (k & Hk & Hr). exists k.
    split; [done|]. by eapply contains_trans.
  - rewrite !leaderboard_match_spec. intros (k & Hk & Hr). exists k.
    split; [done|]. by eapply contains_trans.
Qed.

Lemma filter_refines_witness :
  let rows := sampleRows samples_zero_id in
  contains (toLowerCase (trim " Second ")) (toLowerCase (trim "sec")) ∧
  filteredSampleRows rows " Second " `sublist_of` filteredSampleRows rows "sec".
Proof.
  intros rows.
  assert (contains (toLowerCase (trim " Second ")) (toLowerCase (trim "sec"))) as Hc.
  { by exists "", "ond". }
  split; [exact Hc|]. exact (proj1 (filter_refines rows "sec" " Second " Hc)).
Defined.

(** * Further properties of the grid rows and the CSV pipelines *)

(** ** Row identifiers of the two grids *)

Lemma sample_obj_no_id (s : SampleRow) : sample_obj s !! "id" = None.
Proof. unfold sample_obj. by rewrite !lookup_insert_ne, lookup_empty. Qed.

Lemma leaderboard_obj_no_id (r : LeaderboardEntry) : leaderboard_obj r !! "id" = None.
Proof. unfold leaderboard_obj. by rewrite !lookup_insert_ne, lookup_empty. Qed.

Lemma with_id_fresh (o : gmap string jsval) (i : nat) :
  o !! "id" = None → js_get (with_id o i) "id" = JNum (Z.of_nat i + 1).
Proof. intros Ho. unfold js_get. by rewrite with_id_lookup_id, Ho. Qed.

Lemma strip_with_id (o : gmap string jsval) (i : nat) :
  o !! "id" = None → strip_id (with_id o i) = o.
Proof.
  intros Ho. apply map_eq. intros k. rewrite strip_id_lookup.
  case_decide as Hk; [by subst k|]. by apply with_id_lookup_ne.
Qed.

Lemma mapi_with_id_ids {A} (obj : A → gmap string jsval) (xs : list A) :
  (∀ x, obj x !! "id" = None) →
  NoDup ((λ r, js_get r "id") <$> mapi (λ x i, with_id (obj x) i) xs).
Proof.
  intros Hobj. apply NoDup_alt. intros i j v.
  rewrite !list_lookup_fmap, !mapi_lookup.
  destruct (xs !! i) as [x|]; [simpl|done]. destruct (xs !! j) as [y|]; [simpl|done].
  rewrite !with_id_fresh by done. intros [= <-] [= ?]. lia.
Qed.

Lemma mapi_with_id_elem_of {A} (obj : A → gmap string jsval) (xs : list A)
    (r : gmap string jsval) :
  r ∈ mapi (λ x i, with_id (obj x) i) xs →
  ∃ i x, xs !! i = Some x ∧ r = with_id (obj x) i.
Proof.
  intros [i Hi]%list_elem_of_lookup. rewrite mapi_lookup in Hi.
  destruct (xs !! i) as [x|] eqn:Hx; [|done]. exists i, x. by simplify_eq/=.
Qed.

(** Whatever the search, the rows given to the two grids carry pairwise
    distinct identifiers: a row keeps the 1-based position its sample
    (resp. leaderboard entry) has in the response; filtering does not
    renumber. *)
Theorem grid_row_ids (samples : list SampleRow) (leaderboard : list LeaderboardEntry)
    (query : string) :
  let srows := filteredSampleRows (sampleRows samples) query in
  let lrows := filteredLeaderboardRows (leaderboardRows leaderboard) query in
  NoDup ((λ r, js_get r "id") <$> srows) ∧
  NoDup ((λ r, js_get r "id") <$> lrows) ∧
  (∀ r, r ∈ srows → ∃ i s, samples !! i = Some s ∧
     r = with_id (sample_obj s) i ∧ js_get r "id" = JNum (Z.of_nat i + 1)) ∧
  (∀ r, r ∈ lrows → ∃ i e, leaderboard !! i = Some e ∧
     r = with_id (leaderboard_obj e) i ∧ js_get r "id" = JNum (Z.of_nat i + 1)).
Proof.
  intros srows lrows.
  pose proof (filteredSampleRows_sublist (sampleRows samples) query) as Hs.
  pose proof (filteredLeaderboardRows_sublist (leaderboardRows leaderboard) query) as Hl.
  fold srows in Hs. fold lrows in Hl.
  split; [|split; [|split]].
  - apply (sublist_NoDup _ ((λ r, js_get r "id") <$> sampleRows samples)).
    + apply mapi_with_id_ids, sample_obj_no_id.
    + by apply fmap_sublist.
  - apply (sublist_NoDup _ ((λ r, js_get r "id") <$> leaderboardRows leaderboard)).
    + apply mapi_with_id_ids, leaderboard_obj_no_id.
    + by apply fmap_sublist.
  - intros r Hr. eapply elem_of_sublist in Hr; [|exact Hs].
    apply mapi_with_id_elem_of in Hr as (i & s & Hi & ->).
    exists i, s. split; [done|]. split; [done|].
    apply with_id_fresh, sample_obj_no_id.
  - intros r Hr. eapply elem_of_sublist in Hr; [|exact Hl].
    apply mapi_with_id_elem_of in Hr as (i & e & Hi & ->).
    exists i, e. split; [done|]. split; [done|].
    apply with_id_fresh, leaderboard_obj_no_id.
Qed.

(** ** What the two downloads contain *)

Lemma strip_sampleRows (samples : list SampleRow) :
  strip_id <$> sampleRows samples = sample_obj <$> samples.
Proof.
  apply list_eq. intros i.
  unfold sampleRows. rewrite !list_lookup_fmap, mapi_lookup.
  destruct (samples !! i) as [s|]; [simpl|done].
  by rewrite strip_with_id by apply sample_obj_no_id.
Qed.

(** The sample download holds the samples as the server sent them (the four
    fields [tweet_id], [entity], [sentiment], [text], no [id]): those that
    match the search, in response order; all of them for a blank search. *)
Theorem export_samples_roundtrip (samples : list SampleRow) (query : string) :
  downloadFilteredSamplesCsv_rows (sampleRows samples) query
    `sublist_of` sample_obj <$> samples ∧
  (all_space query = true →
   downloadFilteredSamplesCsv_rows (sampleRows samples) query = sample_obj <$> samples).
Proof.
  unfold downloadFilteredSamplesCsv_rows. split.
  - rewrite <- strip_sampleRows. apply fmap_sublist.
    apply filteredSampleRows_sublist.
  - intros Hq. rewrite filteredSampleRows_unfold, Hq. apply strip_sampleRows.
Qed.

Lemma export_samples_roundtrip_witness :
  downloadFilteredSamplesCsv_rows (sampleRows samples_zero_id) "  " =
  sample_obj <$> samples_zero_id.
Proof.
  exact (proj2 (export_samples_roundtrip samples_zero_id "  ") eq_refl).
Defined.

(** The batch download holds, for the [i]-th surviving row, the uploaded
    row without its [id] column (if it had one, it is lost), with
    [predicted_sentiment] set to [labels[i]]; one row per surviving row. *)
Theorem export_batch_rows (data : list (gmap string string)) (labels : list string)
    (i : nat) (row : gmap string string) :
  batch_rows data !! i = Some row →
  length (downloadCSV_rows (batch_merge data labels)) = length (batch_rows data) ∧
  downloadCSV_rows (batch_merge data labels) !! i =
    Some (<["predicted_sentiment" := label_at labels i]> (delete "id" (csv_obj row))).
Proof.
  intros Hrow. unfold downloadCSV_rows.
  split; [unfold batch_merge; by rewrite length_fmap, mapi_length|].
  rewrite list_lookup_fmap, batch_merge_lookup, Hrow. simpl. f_equal.
  apply map_eq. intros k. rewrite strip_id_lookup.
  destruct (decide (k = "id")) as [->|Hid].
  { by rewrite lookup_insert_ne, lookup_delete_eq. }
  destruct (decide (k = "predicted_sentiment")) as [->|Hps].
  { by rewrite merge_row_predicted, lookup_insert_eq. }
  rewrite merge_row_other, lookup_insert_ne, lookup_delete_ne by done.
  unfold csv_obj. by rewrite lookup_fmap.
Qed.

Lemma export_batch_rows_witness :
  let row : gmap string string := <["id" := "7"]> (<["text" := "hi"]> ∅) in
  let data := [row] in
  batch_rows data !! 0%nat = Some row ∧
  downloadCSV_rows (batch_merge data ["Positive"]) !! 0%nat =
    Some (<["predicted_sentiment" := JStr "Positive"]> (<["text" := JStr "hi"]> ∅)).
Proof.
  intros row data.
  assert (batch_rows data !! 0%nat = Some row) as Hrow by reflexivity.
  split; [exact Hrow|].
  rewrite (proj2 (export_batch_rows data ["Positive"] 0 row Hrow)).
  reflexivity.
Defined.

(** ** The texts submitted for a batch *)

(** The request of a batch carries one text per surviving row, in order:
    the row's [text] column, never the empty string. *)
Theorem batch_texts_spec (data : list (gmap string string)) :
  length (batch_texts (batch_rows data)) = length (batch_rows data) ∧
  Forall (λ t, t ≠ "") (batch_texts (batch_rows data)) ∧
  (∀ i row, batch_rows data !! i = Some row →
     ∃ t, row !! "text" = Some t ∧ batch_texts (batch_rows data) !! i = Some t).
Proof.
  assert (∀ row, row ∈ batch_rows data →
            ∃ t, row !! "text" = Some t ∧ t ≠ "" ∧
                 js_String (js_get (csv_obj row) "text") = t) as Hrows.
  { intros row Hrow. rewrite batch_rows_filter in Hrow.
    apply list_elem_of_filter in Hrow as [Ht _]. unfold has_text in Ht.
    destruct (row !! "text") as [t|] eqn:Hrt; [|done]. exists t.
    split; [done|]. split; [done|].
    unfold js_get, csv_obj. by rewrite lookup_fmap, Hrt. }
  unfold batch_texts. split; [apply length_fmap|]. split.
  - apply Forall_fmap, Forall_forall. intros row Hrow. simpl.
    destruct (Hrows row Hrow) as (t & _ & Hne & ->). done.
  - intros i row Hi.
    destruct (Hrows row) as (t & Ht & _ & Hs); [by eapply list_elem_of_lookup_2|].
    exists t. split; [done|]. by rewrite list_lookup_fmap, Hi; simpl; rewrite Hs.
Qed.

(** ** Sorting when the comparator is an order on the elements at hand *)

Section js_sort_on.
Context {A : Type} (after : A → A → bool) (le : A → A → Prop) (P : A → Prop).
Context (le_trans : ∀ x y z, P x → P y → P z → le x y → le y z → le x z).
Context (after_true : ∀ x y, P x → P y → after x y = true → le y x).
Context (after_false : ∀ x y, P x → P y → after x y = false → le x y).

Lemma sort_insert_sorted_on (x : A) (l : list A) :
  P x → Forall P l → StronglySorted le l →
  StronglySorted le (sort_insert after x l).
Proof.
  intros Hx Hl Hs. induction Hs as [|y l Hs IH Hall]; simpl.
  - repeat constructor.
  - apply Forall_cons in Hl as [Hy Hl]. destruct (after x y) eqn:Hxy.
    + constructor; [by apply IH|].
      rewrite sort_insert_perm. constructor; [by apply after_true|done].
    + constructor; [by constructor|].
      constructor; [by apply after_false|].
      rewrite Forall_forall in Hall, Hl. apply Forall_forall. intros z Hz.
      apply (le_trans x y z); auto.
Qed.

Lemma js_sort_sorted_on (l : list A) :
  Forall P l → StronglySorted le (js_sort after l).
Proof.
  induction l as [|x l IH]; simpl; [constructor|].
  intros [Hx Hl]%Forall_cons. apply sort_insert_sorted_on; [done| |by apply IH].
  by rewrite js_sort_perm.
Qed.
End js_sort_on.

(** * The batch distribution *)

Lemma omap_keys_set_present {V} (k : string) (v : V) (m : OMap.t V) :
  OMap.has k m = true → OMap.keys (OMap.set k v m) = OMap.keys m.
Proof.
  unfold OMap.keys. induction m as [|[k0 v0] m IH]; simpl; [done|].
  case_decide; simpl; [by subst|]. intros ?. f_equal. by apply IH.
Qed.

Lemma count_step_keys (counts : OMap.t Z) (k : string) :
  OMap.keys (count_step counts k) = set_add (OMap.keys counts) k.
Proof.
  unfold count_step, set_add. destruct (OMap.has k counts) eqn:Hhas.
  - rewrite omap_keys_set_present by done.
    apply omap_has_keys in Hhas. by rewrite decide_True.
  - rewrite omap_keys_set_fresh by done. rewrite decide_False; [done|].
    intros Hin%omap_has_keys. congruence.
Qed.

Lemma counts_keys (ks : list string) :
  OMap.keys (foldl count_step OMap.empty ks) = set_of ks.
Proof.
  induction ks as [|k ks IH] using rev_ind; [done|].
  rewrite foldl_snoc, count_step_keys, IH. unfold set_of. by rewrite foldl_snoc.
Qed.

Lemma length_filter_snoc {A} (P : A → Prop) `{∀ x, Decision (P x)} (l : list A) (x : A) :
  length (filter P (l ++ [x])) =
  (length (filter P l) + if decide (P x) then 1 else 0)%nat.
Proof.
  rewrite filter_app, length_app, filter_cons, filter_nil.
  by case_decide.
Qed.

Lemma counts_get (ks : list string) (k : string) :
  OMap.get k (foldl count_step OMap.empty ks) =
  match length (filter (λ x, x = k) ks) with
  | O => None
  | S n => Some (Z.of_nat (S n))
  end.
Proof.
  induction ks as [|x ks IH] using rev_ind; [done|].
  rewrite foldl_snoc. unfold count_step at 1. rewrite omap_get_set.
  rewrite length_filter_snoc.
  destruct (decide (x = k)) as [->|Hne].
  - rewrite IH, Nat.add_1_r.
    destruct (length (filter (λ x, x = k) ks)); simpl; f_equal; lia.
  - by rewrite IH, Nat.add_0_r.
Qed.

Lemma omap_set_sum (m : OMap.t Z) (k : string) (v : Z) :
  foldr Z.add 0 (OMap.set k v m).*2 =
  foldr Z.add 0 m.*2 + v - default 0 (OMap.get k m).
Proof.
  induction m as [|[k0 v0] m IH]; [simpl; lia|].
  cbn [OMap.set OMap.get]. destruct (decide (k0 = k)) as [->|Hne].
  - rewrite !fmap_cons. simpl. lia.
  - rewrite !fmap_cons. cbn [foldr snd]. rewrite IH. lia.
Qed.

Lemma count_step_sum (counts : OMap.t Z) (k : string) :
  foldr Z.add 0 (count_step counts k).*2 = foldr Z.add 0 counts.*2 + 1.
Proof. unfold count_step. rewrite omap_set_sum. lia. Qed.

Lemma counts_sum (ks : list string) :
  foldr Z.add 0 (foldl count_step OMap.empty ks).*2 = Z.of_nat (length ks).
Proof.
  induction ks as [|x ks IH] using rev_ind; [done|].
  rewrite foldl_snoc, count_step_sum, IH, length_app. simpl. lia.
Qed.

Lemma sum_perm (l l' : list Z) : l ≡ₚ l' → foldr Z.add 0 l = foldr Z.add 0 l'.
Proof. induction 1; simpl; lia. Qed.

Lemma List_filter_partition {A} (f : A → bool) (l : list A) :
  List.filter f l ++ List.filter (λ x, negb (f x)) l ≡ₚ l.
Proof.
  induction l as [|x l IH]; simpl; [done|].
  destruct (f x); simpl; [by rewrite IH|].
  by rewrite <- Permutation_middle, IH.
Qed.

Lemma js_entries_perm {V} (o : OMap.t V) : js_entries o ≡ₚ o.
Proof.
  unfold js_entries. rewrite js_sort_perm. apply List_filter_partition.
Qed.

Lemma length_filter_fmap {A B} (f : A → B) (P : B → Prop) `{∀ y, Decision (P y)}
    (l : list A) :
  length (filter P (f <$> l)) = length (filter (λ x, P (f x)) l).
Proof.
  induction l as [|x l IH]; [done|].
  rewrite fmap_cons, !filter_cons. case_decide; simpl; by rewrite IH.
Qed.

Lemma batchDist_inherited (rows : list (gmap string jsval)) :
  (∀ r, r ∈ rows → batch_key r ∉ object_prototype_names) →
  existsb (λ k, bool_decide (k ∈ object_prototype_names)) (batch_key <$> rows) = false.
Proof.
  intros Hrows. induction rows as [|r rows IH]; [done|].
  rewrite fmap_cons. simpl. rewrite IH by (intros; apply Hrows; by right).
  rewrite bool_decide_eq_false_2; [done|]. apply Hrows. by left.
Qed.

Lemma batchDist_unfold (rows : list (gmap string jsval)) :
  (∀ r, r ∈ rows → batch_key r ∉ object_prototype_names) →
  batchDist rows =
  Some (mapi (λ p i, {| pd_id := i; pd_label := p.1; pd_value := p.2 |})
             (js_entries (foldl count_step OMap.empty (batch_key <$> rows)))).
Proof.
  intros Hrows. unfold batchDist. destruct rows as [|r rows]; [done|].
  change (length (r :: rows) =? 0)%nat with false. cbv iota.
  by rewrite batchDist_inherited.
Qed.

(** The slices built from a list of keys. *)
Lemma pie_of_keys (ks : list string) :
  let data := mapi (λ p i, {| pd_id := i; pd_label := p.1; pd_value := p.2 |})
                   (js_entries (foldl count_step OMap.empty ks)) in
  NoDup (pd_label <$> data) ∧
  (∀ l, l ∈ pd_label <$> data ↔ l ∈ ks) ∧
  (∀ d, d ∈ data →
     pd_value d = Z.of_nat (length (filter (λ k, k = pd_label d) ks))) ∧
  foldr Z.add 0 (pd_value <$> data) = Z.of_nat (length ks) ∧
  (∀ i d, data !! i = Some d → pd_id d = i).
Proof.
  set (counts := foldl count_step OMap.empty ks). intros data.
  assert (pd_label <$> data = (js_entries counts).*1) as Hlabels.
  { apply list_eq. intros i. unfold data.
    rewrite !list_lookup_fmap, mapi_lookup. by destruct (_ !! i). }
  assert (pd_value <$> data = (js_entries counts).*2) as Hvalues.
  { apply list_eq. intros i. unfold data.
    rewrite !list_lookup_fmap, mapi_lookup. by destruct (_ !! i). }
  assert ((js_entries counts).*1 ≡ₚ set_of ks) as Hkeys.
  { rewrite js_entries_perm. fold (OMap.keys counts). unfold counts.
    by rewrite counts_keys. }
  split; [|split; [|split; [|split]]].
  - rewrite Hlabels, Hkeys. apply set_of_NoDup.
  - intros l. by rewrite Hlabels, Hkeys, set_of_elem_of.
  - intros d [i Hd]%list_elem_of_lookup. unfold data in Hd.
    rewrite mapi_lookup in Hd.
    apply fmap_Some in Hd as ([l v] & Hi & ->). simpl.
    assert ((l, v) ∈ counts) as Hin.
    { rewrite <- js_entries_perm. by eapply list_elem_of_lookup_2. }
    apply omap_elem_of_get in Hin.
    2: { unfold counts. rewrite counts_keys. apply set_of_NoDup. }
    unfold counts in Hin. rewrite counts_get in Hin.
    destruct (length (filter _ ks)); [done|]. by injection Hin.
  - rewrite Hvalues, (sum_perm _ counts.*2) by (by rewrite js_entries_perm).
    unfold counts. by rewrite counts_sum.
  - intros i d Hd. unfold data in Hd. rewrite mapi_lookup in Hd.
    by apply fmap_Some in Hd as (p & _ & ->).
Qed.

Lemma List_filter_fst {V} (f : string * V → bool) (P : string → Prop)
    `{∀ k, Decision (P k)} (m : list (string * V)) :
  (∀ p, f p = true ↔ P p.1) → (List.filter f m).*1 = filter P m.*1.
Proof.
  intros Hf. induction m as [|p m IH]; [done|].
  rewrite fmap_cons, filter_cons. simpl. destruct (f p) eqn:Hp.
  - rewrite decide_True by (by apply Hf). by rewrite fmap_cons, IH.
  - rewrite decide_False; [done|]. rewrite <- Hf. congruence.
Qed.

Lemma is_index_spec {V} (p : string * V) :
  is_index p = true ↔ is_Some (array_index p.1).
Proof.
  unfold is_index. destruct (array_index p.1) as [n|].
  - split; [by eexists|done].
  - split; [done|]. by intros [? ?].
Qed.

(** The order of the keys in [Object.entries]: the array-index keys in
    ascending numeric order, then the other keys in order of creation. *)
Lemma js_entries_order {V} (o : OMap.t V) :
  ∃ idx,
    (js_entries o).*1 = idx ++ filter (λ k, array_index k = None) o.*1 ∧
    idx ≡ₚ filter (λ k, is_Some (array_index k)) o.*1 ∧
    StronglySorted
      (λ a b, ∃ na nb, array_index a = Some na ∧ array_index b = Some nb ∧
                       (na ≤ nb)%N) idx.
Proof.
  exists (js_sort index_after (List.filter is_index o)).*1.
  split; [|split].
  - unfold js_entries. rewrite fmap_app. f_equal.
    apply List_filter_fst. intros p. unfold is_index.
    destruct (array_index p.1); split; done.
  - rewrite js_sort_perm.
    rewrite (List_filter_fst is_index (λ k, is_Some (array_index k))); [done|].
    apply is_index_spec.
  - apply (StronglySorted_fmap fst
             (λ a b : string * V, ∃ na nb, array_index a.1 = Some na ∧
                array_index b.1 = Some nb ∧ (na ≤ nb)%N)); [done|].
    apply js_sort_sorted_on with (P := λ p, is_index p = true).
    + intros x y z _ _ _ (nx & ny & Hx & Hy & Hxy) (ny' & nz & Hy' & Hz & Hyz).
      exists nx, nz. split; [done|]. split; [done|].
      rewrite Hy in Hy'. injection Hy' as <-. lia.
    + intros x y [nx Hx]%is_index_spec [ny Hy]%is_index_spec.
      unfold index_after. rewrite Hx, Hy. intros Hlt%N.ltb_lt.
      exists ny, nx. split; [done|]. split; [done|]. lia.
    + intros x y [nx Hx]%is_index_spec [ny Hy]%is_index_spec.
      unfold index_after. rewrite Hx, Hy. intros Hge%N.ltb_ge.
      exists nx, ny. split; [done|]. split; [done|]. lia.
    + apply Forall_forall. intros p Hp%list_elem_of_In.
      by apply filter_In in Hp as [_ ?].
Qed.

(** When no predicted label is a name inherited from [Object.prototype],
    the batch pie chart has one slice per distinct label, the value of a
    slice is the number of rows carrying its label, the values add up to
    the number of rows, and the slice identifiers are the positions.  The
    slices come in the order of [Object.entries]: first the labels that are
    array indices, in ascending numeric order, then the other labels in the
    order of their first appearance in the rows. *)
Theorem batchDist_spec (rows : list (gmap string jsval)) :
  (∀ r, r ∈ rows → batch_key r ∉ object_prototype_names) →
  ∃ data, batchDist rows = Some data ∧
    NoDup (pd_label <$> data) ∧
    (∀ l, l ∈ pd_label <$> data ↔ l ∈ batch_key <$> rows) ∧
    (∀ d, d ∈ data →
       pd_value d = Z.of_nat (length (filter (λ r, batch_key r = pd_label d) rows))) ∧
    foldr Z.add 0 (pd_value <$> data) = Z.of_nat (length rows) ∧
    (∀ i d, data !! i = Some d → pd_id d = i) ∧
    (∃ idx,
       pd_label <$> data =
         idx ++ filter (λ k, array_index k = None) (set_of (batch_key <$> rows)) ∧
       idx ≡ₚ filter (λ k, is_Some (array_index k)) (set_of (batch_key <$> rows)) ∧
       StronglySorted
         (λ a b, ∃ na nb, array_index a = Some na ∧ array_index b = Some nb ∧
                          (na ≤ nb)%N) idx).
Proof.
  intros Hrows. rewrite batchDist_unfold by done.
  destruct (pie_of_keys (batch_key <$> rows)) as (Hnd & Hin & Hval & Hsum & Hid).
  eexists. split; [done|]. split; [exact Hnd|]. split; [exact Hin|].
  split; [|split; [|split; [exact Hid|]]].
  - intros d Hd. rewrite (Hval d Hd).
    by rewrite (length_filter_fmap batch_key (λ k, k = pd_label d)).
  - by rewrite Hsum, length_fmap.
  - set (counts := foldl count_step OMap.empty (batch_key <$> rows)).
    destruct (js_entries_order counts) as (idx & Heq & Hperm & Hsorted).
    assert (counts.*1 = set_of (batch_key <$> rows)) as Hkeys by apply counts_keys.
    rewrite Hkeys in Heq, Hperm.
    exists idx. split; [|done]. rewrite <- Heq.
    apply list_eq. intros i.
    rewrite !list_lookup_fmap, mapi_lookup. by destruct (_ !! i).
Qed.

Lemma batchDist_spec_witness :
  let rw := λ (s : string), (<["predicted_sentiment" := JStr s]> ∅ : gmap string jsval) in
  let rows := [rw "Positive"; rw "10"; rw "Negative"; rw "2"; rw "Positive"] in
  (∀ r, r ∈ rows → batch_key r ∉ object_prototype_names) ∧
  ∃ data, batchDist rows = Some data ∧
    pd_label <$> data = ["2"; "10"; "Positive"; "Negative"] ∧
    foldr Z.add 0 (pd_value <$> data) = 5.
Proof.
  intros rw rows.
  assert (∀ r, r ∈ rows → batch_key r ∉ object_prototype_names) as Hrows.
  { intros r Hr. unfold rows in Hr.
    repeat (apply elem_of_cons in Hr as [->|Hr]; [compute_done|]).
    by apply elem_of_nil in Hr. }
  split; [exact Hrows|].
  destruct (batchDist_spec rows Hrows) as (data & Hdata & _ & _ & _ & Hsum & _).
  exists data. split; [exact Hdata|].
  assert (batchDist rows = Some
            [ {| pd_id := 0; pd_label := "2"; pd_value := 1 |};
              {| pd_id := 1; pd_label := "10"; pd_value := 1 |};
              {| pd_id := 2; pd_label := "Positive"; pd_value := 2 |};
              {| pd_id := 3; pd_label := "Negative"; pd_value := 1 |} ]) as Hrun
    by reflexivity.
  rewrite Hrun in Hdata. injection Hdata as <-. split; reflexivity.
Defined.

(** * Single prediction *)

Lemma str_or_empty_id (s : string) : str_or_empty s = s.
Proof. unfold str_or_empty. by destruct (String.eqb_spec s ""). Qed.

(** The chip colour depends on the label only up to letter case; "pos"
    wins over "neg", which wins over "neu"; a label containing none of the
    three is shown in the default colour, and the warning colour is never
    used.  In particular the three classes get success, error and info. *)
Theorem sentimentChipColor_spec (s : string) :
  let x := toLowerCase s in
  sentimentChipColor (toLowerCase s) = sentimentChipColor s ∧
  sentimentChipColor s ≠ ChipWarning ∧
  (sentimentChipColor s = ChipSuccess ↔ contains x "pos") ∧
  (sentimentChipColor s = ChipError ↔ ¬ contains x "pos" ∧ contains x "neg") ∧
  (sentimentChipColor s = ChipInfo ↔
     ¬ contains x "pos" ∧ ¬ contains x "neg" ∧ contains x "neu") ∧
  (sentimentChipColor s = ChipDefault ↔
     ¬ contains x "pos" ∧ ¬ contains x "neg" ∧ ¬ contains x "neu") ∧
  (x = "positive" → sentimentChipColor s = ChipSuccess) ∧
  (x = "negative" → sentimentChipColor s = ChipError) ∧
  (x = "neutral" → sentimentChipColor s = ChipInfo).
Proof.
  intros x. unfold sentimentChipColor.
  rewrite !str_or_empty_id, toLowerCase_idem. fold x.
  assert (x = "positive" → includes x "pos" = true) as Hpos by (by intros ->).
  assert (x = "negative" → includes x "pos" = false ∧ includes x "neg" = true)
    as Hneg by (by intros ->).
  assert (x = "neutral" → includes x "pos" = false ∧ includes x "neg" = false ∧
            includes x "neu" = true) as Hneu by (by intros ->).
  rewrite <- !includes_spec. split; [done|].
  destruct (includes x "pos"), (includes x "neg"), (includes x "neu");
    (split; [done|]); repeat split; try done; try tauto;
    try (intros ?; exfalso; intuition congruence).
Qed.

(** ** [confidenceData] *)

Lemma confidence_rows (cs : list string) (ps : list Q) :
  (length cs ≤ length ps)%nat →
  mapi (λ c i, {| c_label := c; c_value := ps !! i |}) cs =
  zip_with (λ c v, {| c_label := c; c_value := Some v |}) cs ps.
Proof.
  intros Hlen. apply list_eq. intros i.
  rewrite mapi_lookup, lookup_zip_with.
  destruct (cs !! i) as [c|] eqn:Hc; [simpl|done].
  destruct (lookup_lt_is_Some_2 ps i) as [v ->]; [|done].
  apply lookup_lt_Some in Hc. lia.
Qed.

(** The confidence bars exist exactly when the prediction carries both a
    class list and a probability list.  When every class has a
    probability, there is one bar per class, pairing the [i]-th class with
    the [i]-th probability, and the bars are listed from the most to the
    least probable class. *)
Theorem confidenceData_spec :
  (∀ pred, is_Some (confidenceData pred) ↔
     ∃ p, pred = Some p ∧ is_Some (p_classes p) ∧ is_Some (p_probabilities p)) ∧
  (∀ p cs ps,
     p_classes p = Some cs → p_probabilities p = Some ps →
     (length cs ≤ length ps)%nat →
     ∃ rows, confidenceData (Some p) = Some rows ∧
       rows ≡ₚ zip_with (λ c v, {| c_label := c; c_value := Some v |}) cs ps ∧
       StronglySorted
         (λ a b, ∃ va vb, c_value a = Some va ∧ c_value b = Some vb ∧ (vb <= va)%Q)
         rows).
Proof.
  split.
  - intros [p|]; simpl.
    + split.
      * intros Hsome. exists p. split; [done|].
        destruct (p_classes p), (p_probabilities p); split; eauto;
          by destruct Hsome.
      * intros (? & [= <-] & [cs ->] & [ps ->]). by eexists.
    + split; [by intros [? ?]|by intros (? & ? & _)].
  - intros p cs ps Hcs Hps Hlen. simpl. rewrite Hcs, Hps.
    eexists. split; [done|]. rewrite confidence_rows by done.
    split; [apply js_sort_perm|].
    apply js_sort_sorted_on with (P := λ r, is_Some (c_value r)).
    + intros x y z [vx Hx] [vy Hy] [vz Hz] (? & ? & ? & ? & Hxy) (? & ? & ? & ? & Hyz).
      simplify_eq. exists vx, vz. split; [done|]. split; [done|].
      by apply Qle_trans with vy.
    + intros x y [vx Hx] [vy Hy]. unfold by_value_desc. rewrite Hx, Hy.
      destruct (Qlt_le_dec _ _) as [Hlt|]; [intros _|done].
      exists vy, vx. split; [done|]. split; [done|].
      by apply Qlt_le_weak, Qlt_minus_iff.
    + intros x y [vx Hx] [vy Hy]. unfold by_value_desc. rewrite Hx, Hy.
      destruct (Qlt_le_dec _ _) as [|Hle]; [done|intros _].
      exists vx, vy. split; [done|]. split; [done|].
      apply Qle_minus_iff. apply Qle_minus_iff in Hle.
      rewrite Qplus_0_l in Hle. unfold Qminus in Hle.
      rewrite Qopp_plus, Qopp_opp, Qplus_comm in Hle. done.
    + apply Forall_forall. intros r (c & v & -> & _ & _)%elem_of_zip_with. by eexists.
Qed.

Lemma confidenceData_spec_witness :
  let p := {| p_sentiment := "Positive";
              p_classes := Some ["Negative"; "Neutral"; "Positive"];
              p_probabilities := Some [0.2; 0.3; 0.5]%Q |} in
  confidenceData (Some p) =
    Some [ {| c_label := "Positive"; c_value := Some 0.5%Q |};
           {| c_label := "Neutral"; c_value := Some 0.3%Q |};
           {| c_label := "Negative"; c_value := Some 0.2%Q |} ] ∧
  ∃ rows, confidenceData (Some p) = Some rows ∧
    StronglySorted
      (λ a b, ∃ va vb, c_value a = Some va ∧ c_value b = Some vb ∧ (vb <= va)%Q)
      rows.
Proof.
  intros p. split; [reflexivity|].
  destruct (proj2 confidenceData_spec p ["Negative"; "Neutral"; "Positive"]
              [0.2; 0.3; 0.5]%Q eq_refl eq_refl) as (rows & Hrows & _ & Hs).
  { simpl. lia. }
  exists rows. split; [exact Hrows|exact Hs].
Defined.

(** * The request flows *)

Lemma trim_blank (s : string) : String.eqb (trim s) "" = all_space s.
Proof.
  destruct (String.eqb_spec (trim s) "") as [Heq|Hne].
  - symmetry. by apply trim_empty.
  - destruct (all_space s) eqn:Hs; [|done]. destruct Hne. by apply trim_empty.
Qed.

(** [runPredict] always clears the previous prediction.  A blank text sends
    no request and leaves the loading flag alone.  Otherwise exactly the
    trimmed text is sent (not empty, no white space left at either end),
    the loading flag ends false whether the request resolves or is
    rejected, and the prediction is the response, or none after a
    rejection. *)
Theorem runPredict_spec (server : string → Response PredictResponse)
    (st : PredictState) :
  let r := runPredict server st in
  sp_text r.1 = sp_text st ∧
  (all_space (sp_text st) = true →
     r.2 = None ∧ sp_pred r.1 = None ∧ sp_predLoading r.1 = sp_predLoading st) ∧
  (all_space (sp_text st) = false →
     ∃ t, r.2 = Some t ∧ t = trim (sp_text st) ∧ t ≠ "" ∧ trim t = t ∧
       sp_predLoading r.1 = false ∧
       sp_pred r.1 = match server t with
                     | Resolved data => Some data
                     | Rejected _ => None
                     end).
Proof.
  intros r. unfold r, runPredict. simpl. rewrite trim_blank.
  destruct (all_space (sp_text st)) eqn:Hsp; simpl.
  - split; [done|]. split; [done|]. discriminate.
  - split; [by destruct (server _)|]. split; [discriminate|]. intros _.
    exists (trim (sp_text st)). split; [done|]. split; [done|].
    split. { intros Ht%trim_empty. congruence. }
    split; [apply trim_idem|]. split; [done|]. by destruct (server _).
Qed.

Lemma runPredict_spec_witness :
  let st := {| sp_text := "  great phone "; sp_pred := None; sp_predLoading := false |} in
  let server := λ _ : string, Rejected (A := PredictResponse) None in
  all_space (sp_text st) = false ∧
  (runPredict server st).2 = Some "great phone" ∧
  sp_predLoading (runPredict server st).1 = false.
Proof.
  intros st server.
  assert (all_space (sp_text st) = false) as Hsp by reflexivity.
  split; [exact Hsp|].
  destruct (proj2 (proj2 (runPredict_spec server st)) Hsp)
    as (t & Hreq & Ht & _ & _ & Hload & _).
  split; [|exact Hload]. rewrite Hreq, Ht. reflexivity.
Defined.

Lemma explore_error_message_nonempty (message : option string) :
  explore_error_message message ≠ "".
Proof.
  unfold explore_error_message. destruct message as [m|]; [|done].
  by destruct (String.eqb_spec m "").
Qed.

(** [runExplore] sends the current filters with the fixed sizes 12, 50 and
    200 and never changes the filters or the search term.  While the
    request is in flight the loading flag is set, the error is cleared and
    the previous analytics stay.  Once it settles the loading flag is
    false; a resolved request installs the response and leaves no error; a
    rejected one keeps the previous analytics and sets a non-empty error
    message, the error's own message when it has a non-empty one. *)
Theorem runExplore_spec (server : ExploreRequest → Response ExploreResponse)
    (st : ExplorerState) :
  let in_flight := (runExplore server st).1.1 in
  let settled := (runExplore server st).1.2 in
  let req := (runExplore server st).2 in
  (sx_exploreLoading in_flight = true ∧ sx_exploreError in_flight = None ∧
   sx_explore in_flight = sx_explore st ∧
   sx_entity in_flight = sx_entity st ∧ sx_keyword in_flight = sx_keyword st ∧
   sx_sentiment in_flight = sx_sentiment st ∧
   sx_wcSentiment in_flight = sx_wcSentiment st ∧
   sx_localSearch in_flight = sx_localSearch st) ∧
  (req = explore_request st ∧
   rq_entity req = sx_entity st ∧ rq_keyword req = sx_keyword st ∧
   rq_sentiment req = sx_sentiment st ∧ rq_wc_sentiment req = sx_wcSentiment st ∧
   rq_top_entities_n req = 12 ∧ rq_leaderboard_n req = 50 ∧ rq_sample_n req = 200) ∧
  (sx_entity settled = sx_entity st ∧ sx_keyword settled = sx_keyword st ∧
   sx_sentiment settled = sx_sentiment st ∧
   sx_wcSentiment settled = sx_wcSentiment st ∧
   sx_localSearch settled = sx_localSearch st) ∧
  sx_exploreLoading settled = false ∧
  match server req with
  | Resolved data => sx_explore settled = Some data ∧ sx_exploreError settled = None
  | Rejected message =>
      sx_explore settled = sx_explore st ∧
      ∃ msg, sx_exploreError settled = Some msg ∧ msg ≠ "" ∧
        ∀ m, message = Some m → m ≠ "" → msg = m
  end.
Proof.
  cbv zeta. unfold runExplore. cbn [fst snd].
  split; [done|]. split; [done|].
  change (explore_request (set_exploreLoading true (set_exploreError None st)))
    with (explore_request st).
  destruct (server (explore_request st)) as [data|message]; simpl.
  - done.
  - split; [done|]. split; [done|]. split; [done|].
    exists (explore_error_message message). split; [done|].
    split; [apply explore_error_message_nonempty|].
    intros m -> Hm. simpl. by destruct (String.eqb_spec m "").
Qed.

(** [onBatchFile] does not depend on the previous batch: the previous rows
    are dropped at once and never come back.  The loading flag ends false
    and the file name is recorded in every outcome.  A parse error sends no
    request; a completed parse sends the texts of the surviving rows, even
    when no row survives.  Rows are shown only after a resolved request,
    and then they are the merge of the surviving rows with the labels
    returned. *)
Theorem onBatchFile_spec (file_name : string) (parse : ParseOutcome)
    (server : list string → Response (list string)) (st st' : BatchState) :
  let r := onBatchFile file_name parse server st in
  r = onBatchFile file_name parse server st' ∧
  sb_batchLoading r.1 = false ∧
  sb_batchFilename r.1 = file_name ∧
  (parse = ParseError → r.2 = None ∧ sb_batchPredRows r.1 = []) ∧
  (∀ data, parse = ParseComplete data →
     r.2 = Some (batch_texts (batch_rows data)) ∧
     match server (batch_texts (batch_rows data)) with
     | Resolved sentiments =>
         sb_batchPredRows r.1 = batch_merge data sentiments ∧
         length (sb_batchPredRows r.1) = length (batch_texts (batch_rows data))
     | Rejected _ => sb_batchPredRows r.1 = []
     end).
Proof.
  intros r. unfold r, onBatchFile.
  destruct parse as [data|]; simpl.
  - split; [done|].
    destruct (server (batch_texts (batch_rows data))) as [sentiments|] eqn:Hsrv;
      simpl.
    + split; [done|]. split; [done|]. split; [done|].
      intros ? [= <-]. rewrite Hsrv. split; [done|]. split; [done|].
      unfold batch_merge, batch_texts. by rewrite mapi_length, length_fmap.
    + split; [done|]. split; [done|]. split; [done|].
      intros ? [= <-]. by rewrite Hsrv.
  - split; [done|]. split; [done|]. split; [done|]. split; [done|]. done.
Qed.

(** ** From the labels returned to the pie chart *)

Lemma batch_keys_merge (data : list (gmap string string)) (labels : list string) :
  length labels = length (batch_rows data) →
  batch_key <$> batch_merge data labels = labels.
Proof.
  intros Hlen. apply list_eq. intros i.
  rewrite list_lookup_fmap, batch_merge_lookup.
  destruct (batch_rows data !! i) as [row|] eqn:Hrow; simpl.
  - destruct (lookup_lt_is_Some_2 labels i) as [l Hl].
    { rewrite Hlen. by eapply lookup_lt_Some. }
    unfold batch_key, js_get. rewrite merge_row_predicted. simpl.
    unfold label_at. by rewrite Hl.
  - symmetry. apply lookup_ge_None. rewrite Hlen. by apply lookup_ge_None.
Qed.

(** After a batch whose labels are aligned with the surviving rows (none of
    them an inherited name), the pie chart shows the labels the server
    returned: one slice per distinct label, valued by the number of texts
    given that label, the values adding up to the number of surviving
    rows. *)
Theorem batch_pie_of_labels (data : list (gmap string string)) (labels : list string) :
  length labels = length (batch_rows data) →
  (∀ l, l ∈ labels → l ∉ object_prototype_names) →
  ∃ pie, batchDist (batch_merge data labels) = Some pie ∧
    NoDup (pd_label <$> pie) ∧
    (∀ l, l ∈ pd_label <$> pie ↔ l ∈ labels) ∧
    (∀ d, d ∈ pie →
       pd_value d = Z.of_nat (length (filter (λ l, l = pd_label d) labels))) ∧
    foldr Z.add 0 (pd_value <$> pie) = Z.of_nat (length (batch_rows data)).
Proof.
  intros Hlen Hlabels.
  pose proof (batch_keys_merge data labels Hlen) as Hkeys.
  rewrite batchDist_unfold, Hkeys.
  - destruct (pie_of_keys labels) as (Hnd & Hin & Hval & Hsum & _).
    eexists. split; [done|]. split; [exact Hnd|]. split; [exact Hin|].
    split; [exact Hval|]. by rewrite Hsum, Hlen.
  - intros r Hr. apply Hlabels. rewrite <- Hkeys.
    apply list_elem_of_fmap. by exists r.
Qed.

Lemma batch_pie_of_labels_witness :
  let data : list (gmap string string) :=
    [ <["text" := "good"]> ∅; <["text" := ""]> ∅; <["text" := "bad"]> ∅;
      <["text" := "fine"]> ∅ ] in
  let labels := ["Positive"; "Negative"; "Positive"] in
  length labels = length (batch_rows data) ∧
  (∀ l, l ∈ labels → l ∉ object_prototype_names) ∧
  ∃ pie, batchDist (batch_merge data labels) = Some pie ∧
    foldr Z.add 0 (pd_value <$> pie) = 3.
Proof.
  intros data labels.
  assert (length labels = length (batch_rows data)) as Hlen by reflexivity.
  assert (∀ l, l ∈ labels → l ∉ object_prototype_names) as Hlabels.
  { intros l Hl. unfold labels in Hl.
    repeat (apply elem_of_cons in Hl as [->|Hl]; [compute_done|]).
    by apply elem_of_nil in Hl. }
  split; [exact Hlen|]. split; [exact Hlabels|].
  destruct (batch_pie_of_labels data labels Hlen Hlabels)
    as (pie & Hpie & _ & _ & _ & Hsum).
  exists pie. split; [exact Hpie|]. rewrite Hsum. reflexivity.
Defined.
